(** * Reference batch normalization (mkl-dnn, [src/cpu/ref_batch_normalization.cpp])

    A shallow embedding of [ref_batch_normalization_fwd_t::execute_forward]
    and [ref_batch_normalization_bwd_t::execute_backward].

    - The kernels are templates over the element type; the arithmetic they
      use is collected in the class [Arith].  The instance of the source,
      [data_type::f32], is [F32.arith]: IEEE-754 binary32 with binary64
      intermediates, every operation rounded on its own.  What does not
      depend on the arithmetic is proved for every instance of the class.
    - The formulas of the specification are written over the reals in the
      module [Spec]; [SF2R] is the real number a binary32 value denotes, so
      that what a kernel leaves in a buffer can be compared with them.
    - A buffer is a map from physical offsets to elements; the buffers of one
      invocation are distinct objects.  Reads and writes outside a buffer are
      undefined behaviour in the source and are not modelled.
    - A memory descriptor is the function [off] from logical indices to a
      physical offset; [memory_desc_wrapper] itself is not part of the file
      under study and is taken as a parameter.
    - [#pragma omp parallel for] over the channels is modelled by running the
      loop body once per channel; [fwd_run_channels] and [bwd_run_channels]
      take the order in which the channels are served. *)

From Stdlib Require Import ZArith List Lia Permutation Bool.
From Stdlib Require Import Reals Lra.
From Stdlib Require Import Floats.SpecFloat.
Import ListNotations.

Local Open Scope Z_scope.

(** ** Arithmetic of the element type *)

(** [data_t] is the element type of the template instance, [double] the C++
    type of [batch_norm_epsilon] and of the literal [1.]. *)
Class Arith : Type := {
  data_t : Type;
  double : Type;
  fadd : data_t -> data_t -> data_t;
  fsub : data_t -> data_t -> data_t;
  fmul : data_t -> data_t -> data_t;
  fdiv : data_t -> data_t -> data_t;
  of_int : Z -> data_t;            (* int -> data_t conversion *)
  to_double : data_t -> double;    (* data_t -> double promotion *)
  of_double : double -> data_t;    (* double -> data_t conversion on assignment *)
  dlit : Z -> double;              (* the double literals 1. and 0.0 *)
  dadd : double -> double -> double;
  ddiv : double -> double -> double;
  dsqrt : double -> double
}.

(** ** C++ [int] products *)

(** Two's complement wrap-around of a 32-bit [int]. *)
Definition wrap_int (z : Z) : Z := (z + 2 ^ 31) mod 2 ^ 32 - 2 ^ 31.

Definition int_mul (a b : Z) : Z := wrap_int (a * b).

(** ** Loops *)

(** The values taken by [i] in [for (int i = 0; i < n; ++i)]. *)
Definition range (n : Z) : list Z := map Z.of_nat (seq 0 (Z.to_nat n)).

Definition for_ {S : Type} (n : Z) (body : Z -> S -> S) (s : S) : S :=
  fold_left (fun s i => body i s) (range n) s.

(** The loop nest [for n < N; for h < H; for w < W]. *)
Definition for_nhw {S : Type} (N H W : Z) (body : Z -> Z -> Z -> S -> S) : S -> S :=
  for_ N (fun n => for_ H (fun h => for_ W (fun w => body n h w))).

(** The (n,h,w) triples in the order the loop nest visits them. *)
Definition nhw_order (N H W : Z) : list (Z * Z * Z) :=
  flat_map (fun n => flat_map (fun h => map (fun w => (n, h, w)) (range W)) (range H))
           (range N).

(** ** Memory descriptors and the primitive descriptor *)

Record memory_desc_wrapper : Type := { off : list Z -> Z }.

Section Kernels.

Context {A : Arith}.

Definition buffer : Type := Z -> data_t.

Definition store (b : buffer) (p : Z) (v : data_t) : buffer :=
  fun q => if q =? p then v else b q.

(** What [conf_] gives to the two kernels. *)
Record bnorm_conf : Type := {
  MB : Z;
  C : Z;
  H : Z;
  W : Z;
  batch_norm_epsilon : double;
  src_pd : memory_desc_wrapper;
  weights_pd : memory_desc_wrapper;
  diff_src_pd : memory_desc_wrapper;
  diff_weights_pd : memory_desc_wrapper;
  workspace_pd : memory_desc_wrapper
}.

(** *** Forward kernel *)

(** The memory the forward loop body works on: [dst], the workspace (absent
    when [ws == nullptr]) and the two locals [v_mean], [v_variance]. *)
Record fwd_state : Type := mk_fwd {
  f_dst : buffer;
  f_ws : option buffer;
  v_mean : data_t;
  v_variance : data_t
}.

(** [data_t *ws_mean = is_training ? &ws[0] : nullptr;]
    [data_t *ws_variance = is_training ? &ws[C] : nullptr;] *)
Definition fwd_ws_mean (cfg : bnorm_conf) : Z := 0.
Definition fwd_ws_variance (cfg : bnorm_conf) : Z := C cfg.

(** [data_t &mean = is_training ? ws_mean[c] : v_mean;] read and written. *)
Definition get_mean (cfg : bnorm_conf) (c : Z) (s : fwd_state) : data_t :=
  match f_ws s with
  | Some ws => ws (fwd_ws_mean cfg + c)
  | None => v_mean s
  end.

Definition set_mean (cfg : bnorm_conf) (c : Z) (v : data_t) (s : fwd_state) : fwd_state :=
  match f_ws s with
  | Some ws => mk_fwd (f_dst s) (Some (store ws (fwd_ws_mean cfg + c) v)) (v_mean s) (v_variance s)
  | None => mk_fwd (f_dst s) None v (v_variance s)
  end.

(** [data_t &variance = is_training ? ws_variance[c] : v_variance;] *)
Definition get_variance (cfg : bnorm_conf) (c : Z) (s : fwd_state) : data_t :=
  match f_ws s with
  | Some ws => ws (fwd_ws_variance cfg + c)
  | None => v_variance s
  end.

Definition set_variance (cfg : bnorm_conf) (c : Z) (v : data_t) (s : fwd_state) : fwd_state :=
  match f_ws s with
  | Some ws => mk_fwd (f_dst s) (Some (store ws (fwd_ws_variance cfg + c) v)) (v_mean s) (v_variance s)
  | None => mk_fwd (f_dst s) None (v_mean s) v
  end.

Definition set_dst (p : Z) (v : data_t) (s : fwd_state) : fwd_state :=
  mk_fwd (store (f_dst s) p v) (f_ws s) (v_mean s) (v_variance s).

(** The body of the loop over [c] of [execute_forward]. *)
Definition fwd_channel (cfg : bnorm_conf) (src scaleshift : buffer) (c : Z)
    (s : fwd_state) : fwd_state :=
  let data_d := src_pd cfg in
  let scaleshift_d := weights_pd cfg in
  let N := MB cfg in
  let eps := batch_norm_epsilon cfg in
  (* mean = variance = 0; *)
  let s := set_variance cfg c (of_int 0) s in
  let s := set_mean cfg c (get_variance cfg c s) s in
  (* mean += src[data_d.off(n, c, h, w)]; *)
  let s := for_nhw N (H cfg) (W cfg) (fun n h w s =>
             set_mean cfg c (fadd (get_mean cfg c s) (src (off data_d [n; c; h; w]))) s) s in
  (* mean /= W * N * H; *)
  let s := set_mean cfg c
             (fdiv (get_mean cfg c s) (of_int (int_mul (int_mul (W cfg) N) (H cfg)))) s in
  (* data_t m = src[...] - mean; variance += m*m; *)
  let s := for_nhw N (H cfg) (W cfg) (fun n h w s =>
             let m := fsub (src (off data_d [n; c; h; w])) (get_mean cfg c s) in
             set_variance cfg c (fadd (get_variance cfg c s) (fmul m m)) s) s in
  (* variance = 1. / sqrt(variance/(W * H * N) + eps); *)
  let s := set_variance cfg c
             (of_double
                (ddiv (dlit 1)
                   (dsqrt (dadd (to_double (fdiv (get_variance cfg c s)
                                               (of_int (int_mul (int_mul (W cfg) (H cfg)) N))))
                                eps)))) s in
  (* dst[d_off] = scaleshift[sm_off] * (src[d_off] - mean) * variance + scaleshift[sv_off]; *)
  for_nhw N (H cfg) (W cfg) (fun n h w s =>
    let d_off := off data_d [n; c; h; w] in
    let sm_off := off scaleshift_d [0; c] in
    let sv_off := off scaleshift_d [1; c] in
    set_dst d_off
      (fadd (fmul (fmul (scaleshift sm_off) (fsub (src d_off) (get_mean cfg c s)))
                  (get_variance cfg c s))
            (scaleshift sv_off)) s) s.

(** The loop over the channels, served in the order [cs]. *)
Definition fwd_run_channels (cfg : bnorm_conf) (src scaleshift : buffer)
    (cs : list Z) (s : fwd_state) : fwd_state :=
  fold_left (fun s c => fwd_channel cfg src scaleshift c s) cs s.

(** [v_mean] and [v_variance] are declared without an initial value in every
    iteration and assigned before they are read; they start here at zero. *)
Definition fwd_init (dst : buffer) (ws : option buffer) : fwd_state :=
  mk_fwd dst ws (of_int 0) (of_int 0).

(** [execute_forward]: the caller's [dst] and [ws] (absent for a null
    pointer) after the call. *)
Definition execute_forward (cfg : bnorm_conf) (src scaleshift dst : buffer)
    (ws : option buffer) : buffer * option buffer :=
  let s := fwd_run_channels cfg src scaleshift (range (C cfg)) (fwd_init dst ws) in
  (f_dst s, f_ws s).

(** *** Backward kernel *)

(** The memory the backward loop body writes: [diff_src] and
    [diff_scaleshift] (absent for a null pointer). *)
Record bwd_state : Type := mk_bwd {
  b_diff_src : buffer;
  b_diff_scaleshift : option buffer
}.

Definition set_diff_src (p : Z) (v : data_t) (s : bwd_state) : bwd_state :=
  mk_bwd (store (b_diff_src s) p v) (b_diff_scaleshift s).

(** [auto ws_mean = &ws[workspace_d.off(0)];]
    [auto ws_variance = &ws[workspace_d.off(C)];] *)
Definition bwd_ws_mean (cfg : bnorm_conf) : Z := off (workspace_pd cfg) [0].
Definition bwd_ws_variance (cfg : bnorm_conf) : Z := off (workspace_pd cfg) [C cfg].

(** The accumulation loop on the locals [(diff_gamma, diff_beta)]. *)
Definition bwd_accumulate (cfg : bnorm_conf) (src diff_dst : buffer) (c : Z)
    (mean : data_t) : data_t * data_t -> data_t * data_t :=
  let data_d := src_pd cfg in
  let diff_data_d := diff_src_pd cfg in
  for_nhw (MB cfg) (H cfg) (W cfg) (fun n h w acc =>
    let '(diff_gamma, diff_beta) := acc in
    (fadd diff_gamma (fmul (fsub (src (off data_d [n; c; h; w])) mean)
                           (diff_dst (off diff_data_d [n; c; h; w]))),
     fadd diff_beta (diff_dst (off diff_data_d [n; c; h; w])))).

(** The body of the loop over [c] of [execute_backward]. *)
Definition bwd_channel (cfg : bnorm_conf) (src diff_dst scaleshift ws : buffer) (c : Z)
    (s : bwd_state) : bwd_state :=
  let data_d := src_pd cfg in
  let diff_data_d := diff_src_pd cfg in
  let scaleshift_d := weights_pd cfg in
  let diff_scaleshift_d := diff_weights_pd cfg in
  let N := MB cfg in
  let mean := ws (bwd_ws_mean cfg + c) in
  let variance := ws (bwd_ws_variance cfg + c) in
  let gamma := scaleshift (off scaleshift_d [0; c]) in
  (* data_t diff_gamma = data_t(0); data_t diff_beta = data_t(0); *)
  let diff_gamma := of_int 0 in
  let diff_beta := of_int 0 in
  (* diff_gamma = 0.0; diff_beta = 0.0; *)
  let diff_gamma := of_double (dlit 0) in
  let diff_beta := of_double (dlit 0) in
  let '(diff_gamma, diff_beta) :=
    bwd_accumulate cfg src diff_dst c mean (diff_gamma, diff_beta) in
  (* diff_gamma *= variance; *)
  let diff_gamma := fmul diff_gamma variance in
  (* if (diff_scaleshift) { ... } *)
  let s :=
    match b_diff_scaleshift s with
    | Some dss =>
        mk_bwd (b_diff_src s)
          (Some (store (store dss (off diff_scaleshift_d [0; c]) diff_gamma)
                       (off diff_scaleshift_d [1; c]) diff_beta))
    | None => s
    end in
  for_nhw N (H cfg) (W cfg) (fun n h w s =>
    let o := off diff_data_d [n; c; h; w] in
    (* diff_src[o] = diff_dst[o] - diff_beta/(W*H*N)
                     - (src[..] - mean)*diff_gamma*variance/(W*H*N); *)
    let s := set_diff_src o
               (fsub (fsub (diff_dst o)
                           (fdiv diff_beta (of_int (int_mul (int_mul (W cfg) (H cfg)) N))))
                     (fdiv (fmul (fmul (fsub (src (off data_d [n; c; h; w])) mean) diff_gamma)
                                 variance)
                           (of_int (int_mul (int_mul (W cfg) (H cfg)) N)))) s in
    (* diff_src[o] *= gamma*variance; *)
    set_diff_src o (fmul (b_diff_src s o) (fmul gamma variance)) s) s.

Definition bwd_run_channels (cfg : bnorm_conf) (src diff_dst scaleshift ws : buffer)
    (cs : list Z) (s : bwd_state) : bwd_state :=
  fold_left (fun s c => bwd_channel cfg src diff_dst scaleshift ws c s) cs s.

(** [execute_backward]: the caller's [diff_src] and [diff_scaleshift]
    (absent for a null pointer) after the call. *)
Definition execute_backward (cfg : bnorm_conf) (src diff_dst scaleshift ws diff_src : buffer)
    (diff_scaleshift : option buffer) : buffer * option buffer :=
  let s := bwd_run_channels cfg src diff_dst scaleshift ws (range (C cfg))
             (mk_bwd diff_src diff_scaleshift) in
  (b_diff_src s, b_diff_scaleshift s).

End Kernels.

Arguments buffer : clear implicits.
Arguments bnorm_conf : clear implicits.
Arguments fwd_state : clear implicits.
Arguments bwd_state : clear implicits.

(** ** The arithmetic of the source *)

(** IEEE-754 arithmetic, round to nearest even, every operation rounded on
    its own: [data_t] is binary32 ([data_type::f32]), [double] is binary64. *)
Module F32.
Definition prec32 : Z := 24.
Definition emax32 : Z := 128.
Definition prec64 : Z := 53.
Definition emax64 : Z := 1024.

(** Rounding of a finite value to the format [(prec, emax)]. *)
Definition round_to (prec emax : Z) (x : spec_float) : spec_float :=
  match x with
  | S754_finite s m e => binary_normalize prec emax (cond_Zopp s (Zpos m)) e s
  | _ => x
  end.

Definition arith : Arith := {|
  data_t := spec_float;
  double := spec_float;
  fadd := SFadd prec32 emax32;
  fsub := SFsub prec32 emax32;
  fmul := SFmul prec32 emax32;
  fdiv := SFdiv prec32 emax32;
  of_int := fun z => binary_normalize prec32 emax32 z 0 false;
  to_double := round_to prec64 emax64;
  of_double := round_to prec32 emax32;
  dlit := fun z => binary_normalize prec64 emax64 z 0 false;
  dadd := SFadd prec64 emax64;
  ddiv := SFdiv prec64 emax64;
  dsqrt := SFsqrt prec64 emax64
|}.
End F32.

(** Zeros and finite numbers, as opposed to infinities and NaN. *)
Definition finite_or_zero (x : spec_float) : bool :=
  match x with
  | S754_zero _ | S754_finite _ _ _ => true
  | _ => false
  end.

(** A zero of either sign. *)
Definition is_zero (x : spec_float) : bool :=
  match x with
  | S754_zero _ => true
  | _ => false
  end.

(** The real number a finite value denotes, m · 2^e with its sign, as a
    quotient of two integers; 0 for the zeros (infinities and NaN denote no
    real number and are sent to 0 as well). *)
Definition SF2R (x : spec_float) : R :=
  match x with
  | S754_finite s m e =>
      (IZR (cond_Zopp s (Zpos m) * 2 ^ Z.max 0 e) / IZR (2 ^ Z.max 0 (- e)))%R
  | _ => 0%R
  end.

(** * Notions used to state the properties *)

(** ** Contents of buffers *)

Section BufferContents.

Context {A : Arith}.

(** Two buffers with the same contents. *)
Definition buf_eq (b b' : buffer A) : Prop := forall p, b p = b' p.

(** A sequence of writes [(offset, value)], performed from left to right. *)
Definition write_all (l : list (Z * data_t)) (b : buffer A) : buffer A :=
  fold_left (fun b kv => store b (fst kv) (snd kv)) l b.

(** Same contents, for an optional buffer. *)
Definition obuf_eq (o o' : option (buffer A)) : Prop :=
  match o, o' with
  | Some b, Some b' => buf_eq b b'
  | None, None => True
  | _, _ => False
  end.

End BufferContents.

(** ** Layouts *)

(** A descriptor of a 4-D buffer of shape (N, C, H, W) is a layout when
    distinct logical indices of the shape have distinct physical offsets. *)
Definition layout4 (d : memory_desc_wrapper) (N C H W : Z) : Prop :=
  forall n c h w n' c' h' w',
    0 <= n < N -> 0 <= c < C -> 0 <= h < H -> 0 <= w < W ->
    0 <= n' < N -> 0 <= c' < C -> 0 <= h' < H -> 0 <= w' < W ->
    off d [n; c; h; w] = off d [n'; c'; h'; w'] ->
    n = n' /\ c = c' /\ h = h' /\ w = w'.

(** The same for a buffer of shape (2, C). *)
Definition layout2 (d : memory_desc_wrapper) (C : Z) : Prop :=
  forall r c r' c',
    0 <= r < 2 -> 0 <= c < C -> 0 <= r' < 2 -> 0 <= c' < C ->
    off d [r; c] = off d [r'; c'] -> r = r' /\ c = c'.

(** Offsets of distinct channels are distinct. *)
Definition channel_separated4 (d : memory_desc_wrapper) (N C H W : Z) : Prop :=
  forall n c h w n' c' h' w',
    0 <= n < N -> 0 <= c < C -> 0 <= h < H -> 0 <= w < W ->
    0 <= n' < N -> 0 <= c' < C -> 0 <= h' < H -> 0 <= w' < W ->
    off d [n; c; h; w] = off d [n'; c'; h'; w'] -> c = c'.

Definition channel_separated2 (d : memory_desc_wrapper) (C : Z) : Prop :=
  forall r c r' c',
    0 <= r < 2 -> 0 <= c < C -> 0 <= r' < 2 -> 0 <= c' < C ->
    off d [r; c] = off d [r'; c'] -> c = c'.

(** ** The values of one iteration of [execute_forward] *)

Section ForwardValues.

Context {A : Arith}.
Variable cfg : bnorm_conf A.
Variables src scaleshift : buffer A.

(** [src[data_d.off(n, c, h, w)]] *)
Definition src_at (c : Z) (t : Z * Z * Z) : data_t :=
  let '(n, h, w) := t in src (off (src_pd cfg) [n; c; h; w]).

(** The value of [mean] after [mean /= W * N * H]. *)
Definition fwd_mean (c : Z) : data_t :=
  fdiv (fold_left (fun a t => fadd a (src_at c t)) (nhw_order (MB cfg) (H cfg) (W cfg)) (of_int 0))
       (of_int (int_mul (int_mul (W cfg) (MB cfg)) (H cfg))).

(** The value of [variance] after the second loop nest. *)
Definition fwd_sqsum (c : Z) : data_t :=
  fold_left (fun a t => fadd a (fmul (fsub (src_at c t) (fwd_mean c))
                                     (fsub (src_at c t) (fwd_mean c))))
            (nhw_order (MB cfg) (H cfg) (W cfg)) (of_int 0).

(** The value of the expression [variance/(W * H * N)]. *)
Definition fwd_variance (c : Z) : data_t :=
  fdiv (fwd_sqsum c) (of_int (int_mul (int_mul (W cfg) (H cfg)) (MB cfg))).

(** The value of [variance] after [variance = 1. / sqrt(variance/(W * H * N) + eps)]. *)
Definition fwd_invstd (c : Z) : data_t :=
  of_double (ddiv (dlit 1)
               (dsqrt (dadd (to_double (fwd_variance c)) (batch_norm_epsilon cfg)))).

(** The value stored to [dst[d_off]]. *)
Definition fwd_out (c : Z) (t : Z * Z * Z) : data_t :=
  fadd (fmul (fmul (scaleshift (off (weights_pd cfg) [0; c]))
                   (fsub (src_at c t) (fwd_mean c)))
             (fwd_invstd c))
       (scaleshift (off (weights_pd cfg) [1; c])).

(** The writes of one iteration to [dst], in program order. *)
Definition fwd_dst_writes (c : Z) : list (Z * data_t) :=
  map (fun t => (let '(n, h, w) := t in off (src_pd cfg) [n; c; h; w], fwd_out c t))
      (nhw_order (MB cfg) (H cfg) (W cfg)).

(** The final contents of the two workspace cells of one iteration. *)
Definition fwd_ws_writes (c : Z) : list (Z * data_t) :=
  [(fwd_ws_variance cfg + c, fwd_invstd c); (fwd_ws_mean cfg + c, fwd_mean c)].

End ForwardValues.

(** ** The values of one iteration of [execute_backward] *)

Section BackwardValues.

Context {A : Arith}.
Variable cfg : bnorm_conf A.
Variables src diff_dst scaleshift ws : buffer A.

(** [data_t mean = ws_mean[c]; data_t variance = ws_variance[c];] *)
Definition bwd_mean (c : Z) : data_t := ws (bwd_ws_mean cfg + c).
Definition bwd_invstd (c : Z) : data_t := ws (bwd_ws_variance cfg + c).

(** [data_t gamma = scaleshift[scaleshift_d.off(0, c)];] *)
Definition bwd_gamma (c : Z) : data_t := scaleshift (off (weights_pd cfg) [0; c]).

(** [diff_dst[diff_data_d.off(n, c, h, w)]] *)
Definition diff_dst_at (c : Z) (t : Z * Z * Z) : data_t :=
  let '(n, h, w) := t in diff_dst (off (diff_src_pd cfg) [n; c; h; w]).

(** The locals [(diff_gamma, diff_beta)] after the accumulation loop. *)
Definition bwd_sums (c : Z) : data_t * data_t :=
  bwd_accumulate cfg src diff_dst c (bwd_mean c) (of_double (dlit 0), of_double (dlit 0)).

(** [diff_gamma] after [diff_gamma *= variance], and [diff_beta]. *)
Definition bwd_diff_gamma (c : Z) : data_t := fmul (fst (bwd_sums c)) (bwd_invstd c).
Definition bwd_diff_beta (c : Z) : data_t := snd (bwd_sums c).

(** The value of [diff_src[...]] after the two statements of the last loop. *)
Definition bwd_out (c : Z) (t : Z * Z * Z) : data_t :=
  fmul (fsub (fsub (diff_dst_at c t)
                   (fdiv (bwd_diff_beta c)
                         (of_int (int_mul (int_mul (W cfg) (H cfg)) (MB cfg)))))
             (fdiv (fmul (fmul (fsub (src_at cfg src c t) (bwd_mean c)) (bwd_diff_gamma c))
                         (bwd_invstd c))
                   (of_int (int_mul (int_mul (W cfg) (H cfg)) (MB cfg)))))
       (fmul (bwd_gamma c) (bwd_invstd c)).

Definition bwd_src_writes (c : Z) : list (Z * data_t) :=
  map (fun t => (let '(n, h, w) := t in off (diff_src_pd cfg) [n; c; h; w], bwd_out c t))
      (nhw_order (MB cfg) (H cfg) (W cfg)).

(** The writes of one iteration to [diff_scaleshift], in program order. *)
Definition bwd_ss_writes (c : Z) : list (Z * data_t) :=
  [(off (diff_weights_pd cfg) [0; c], bwd_diff_gamma c);
   (off (diff_weights_pd cfg) [1; c], bwd_diff_beta c)].

(** [diff_gamma] and [diff_beta] after the accumulation loop, as running sums
    from 0.0 in the order of the loop nest. *)
Definition diff_gamma_sum (c : Z) : data_t :=
  fold_left (fun a t => fadd a (fmul (fsub (src_at cfg src c t) (bwd_mean c)) (diff_dst_at c t)))
            (nhw_order (MB cfg) (H cfg) (W cfg)) (of_double (dlit 0)).

Definition diff_beta_sum (c : Z) : data_t :=
  fold_left (fun a t => fadd a (diff_dst_at c t))
            (nhw_order (MB cfg) (H cfg) (W cfg)) (of_double (dlit 0)).

End BackwardValues.

(** ** The writes of a loop nest to a 4-D buffer *)

(** One write per (n,h,w) of channel [c], in the order of the loop nest. *)
Definition chan_writes {A : Arith} (d : memory_desc_wrapper) (N H W : Z)
    (val : Z -> Z * Z * Z -> data_t) (c : Z) : list (Z * data_t) :=
  map (fun t => (let '(n, h, w) := t in off d [n; c; h; w], val c t)) (nhw_order N H W).

(** ** Two invocations on logically related buffers *)

(** Channel [c'] of [x'], laid out by [d'], holds what channel [c] of [x],
    laid out by [d], holds. *)
Definition same_slice4 {A : Arith} (N H W : Z) (d d' : memory_desc_wrapper)
    (x x' : buffer A) (c c' : Z) : Prop :=
  forall n h w, 0 <= n < N -> 0 <= h < H -> 0 <= w < W ->
    x' (off d' [n; c'; h; w]) = x (off d [n; c; h; w]).

Definition same_slice2 {A : Arith} (d d' : memory_desc_wrapper)
    (x x' : buffer A) (c c' : Z) : Prop :=
  forall r, 0 <= r < 2 -> x' (off d' [r; c']) = x (off d [r; c]).

(** The same for the two workspace elements the backward kernel reads for a
    channel. *)
Definition same_slice_ws {A : Arith} (cfg cfg' : bnorm_conf A) (ws ws' : buffer A)
    (c c' : Z) : Prop :=
  ws' (bwd_ws_mean cfg' + c') = ws (bwd_ws_mean cfg + c)
  /\ ws' (bwd_ws_variance cfg' + c') = ws (bwd_ws_variance cfg + c).

(** [x'] laid out by [d'] holds at channel [c] what [x] laid out by [d] holds
    at channel [pi c]. *)
Definition related4 {A : Arith} (N C H W : Z) (pi : Z -> Z) (d d' : memory_desc_wrapper)
    (x x' : buffer A) : Prop :=
  forall n c h w, 0 <= n < N -> 0 <= c < C -> 0 <= h < H -> 0 <= w < W ->
    x' (off d' [n; c; h; w]) = x (off d [n; pi c; h; w]).

Definition related2 {A : Arith} (C : Z) (pi : Z -> Z) (d d' : memory_desc_wrapper)
    (x x' : buffer A) : Prop :=
  forall r c, 0 <= r < 2 -> 0 <= c < C -> x' (off d' [r; c]) = x (off d [r; pi c]).

(** The same for the two rows of the workspace as the backward kernel reads
    them. *)
Definition related_ws {A : Arith} (cfg cfg' : bnorm_conf A) (pi : Z -> Z)
    (ws ws' : buffer A) : Prop :=
  forall c, 0 <= c < C cfg ->
    ws' (bwd_ws_mean cfg' + c) = ws (bwd_ws_mean cfg + pi c)
    /\ ws' (bwd_ws_variance cfg' + c) = ws (bwd_ws_variance cfg + pi c).

(** Two configurations with the same shape and epsilon. *)
Definition same_shape {A : Arith} (cfg cfg' : bnorm_conf A) : Prop :=
  MB cfg' = MB cfg /\ C cfg' = C cfg /\ H cfg' = H cfg /\ W cfg' = W cfg
  /\ batch_norm_epsilon cfg' = batch_norm_epsilon cfg.

(** * The formulas of the specification, over the reals *)

Module Spec.

Local Open Scope R_scope.

(** Σ_{t in l} g t *)
Definition list_sum {T : Type} (g : T -> R) (l : list T) : R :=
  fold_right (fun t acc => g t + acc) 0 l.

(** Σ_{0 <= i < n} f i *)
Definition Rsum (n : Z) (f : Z -> R) : R := list_sum f (range n).

(** Σ_{n,h,w} f n h w over 0 <= n < N, 0 <= h < H, 0 <= w < W *)
Definition sum_nhw (N H W : Z) (f : Z -> Z -> Z -> R) : R :=
  Rsum N (fun n => Rsum H (fun h => Rsum W (fun w => f n h w))).

Section Formulas.

Context {A : Arith}.

(** Of the configuration the formulas use the shape and the descriptors. *)
Variable cfg : bnorm_conf A.

(** The value of epsilon. *)
Variable eps : R.

(** The number N·H·W of elements of a channel. *)
Definition NHW : R := IZR (MB cfg * H cfg * W cfg).

(** The element [x[n,c,h,w]] of real-valued contents laid out by [d]. *)
Definition elem (d : memory_desc_wrapper) (x : Z -> R) (n c h w : Z) : R :=
  x (off d [n; c; h; w]).

(** mean[c] = (1/(N·H·W)) · Σ_{n,h,w} src[n,c,h,w] *)
Definition mean (src : Z -> R) (c : Z) : R :=
  (1 / NHW) * sum_nhw (MB cfg) (H cfg) (W cfg) (fun n h w => elem (src_pd cfg) src n c h w).

(** variance[c] = (1/(N·H·W)) · Σ_{n,h,w} (src[n,c,h,w] - mean[c])^2 *)
Definition variance (src : Z -> R) (c : Z) : R :=
  (1 / NHW) * sum_nhw (MB cfg) (H cfg) (W cfg)
                (fun n h w => (elem (src_pd cfg) src n c h w - mean src c) ^ 2).

(** invstd[c] = 1 / sqrt(variance[c] + eps) *)
Definition invstd (src : Z -> R) (c : Z) : R :=
  1 / sqrt (variance src c + eps).

(** dst[n,c,h,w] = scale[c] · (src[n,c,h,w] - mean[c]) · invstd[c] + shift[c] *)
Definition dst (src scaleshift : Z -> R) (n c h w : Z) : R :=
  scaleshift (off (weights_pd cfg) [0; c]%Z)
  * (elem (src_pd cfg) src n c h w - mean src c) * invstd src c
  + scaleshift (off (weights_pd cfg) [1; c]%Z).

(** diff_gamma[c] = invstd[c] · Σ_{n,h,w} (src[n,c,h,w] - mean[c]) · diff_dst[n,c,h,w],
    for a mean and an invstd read from the workspace. *)
Definition diff_gamma (src diff_dst : Z -> R) (mean_c invstd_c : R) (c : Z) : R :=
  invstd_c * sum_nhw (MB cfg) (H cfg) (W cfg)
               (fun n h w => (elem (src_pd cfg) src n c h w - mean_c)
                             * elem (diff_src_pd cfg) diff_dst n c h w).

(** diff_beta[c] = Σ_{n,h,w} diff_dst[n,c,h,w] *)
Definition diff_beta (diff_dst : Z -> R) (c : Z) : R :=
  sum_nhw (MB cfg) (H cfg) (W cfg) (fun n h w => elem (diff_src_pd cfg) diff_dst n c h w).

(** diff_src[n,c,h,w] = gamma[c] · invstd[c] · ( diff_dst[n,c,h,w]
      - diff_beta[c]/(N·H·W)
      - (src[n,c,h,w] - mean[c]) · diff_gamma[c] · invstd[c] / (N·H·W) ) *)
Definition diff_src (src diff_dst : Z -> R) (gamma_c mean_c invstd_c : R) (n c h w : Z) : R :=
  gamma_c * invstd_c
  * (elem (diff_src_pd cfg) diff_dst n c h w
     - diff_beta diff_dst c / NHW
     - (elem (src_pd cfg) src n c h w - mean_c)
       * diff_gamma src diff_dst mean_c invstd_c c * invstd_c / NHW).

End Formulas.

End Spec.

(** * The example scenario: N=2, C=1, H=1, W=2, src=[1,3,5,7] *)

(** The dense row-major descriptor of a buffer of dimensions [dims]. *)
Fixpoint row_major (dims idx : list Z) (acc : Z) : Z :=
  match dims, idx with
  | d :: dims', i :: idx' => row_major dims' idx' (acc * d + i)
  | _, _ => acc
  end.

Definition plain (dims : list Z) : memory_desc_wrapper :=
  {| off := fun idx => row_major dims idx 0 |}.

Section Scenario.

Context {A : Arith}.

Definition ex_cfg : bnorm_conf A := {|
  MB := 2; C := 1; H := 1; W := 2;
  batch_norm_epsilon := dlit 0;
  src_pd := plain [2; 1; 1; 2];
  weights_pd := plain [2; 1];
  diff_src_pd := plain [2; 1; 1; 2];
  diff_weights_pd := plain [2; 1];
  workspace_pd := plain [2]
|}.

(** src = [1, 3, 5, 7] *)
Definition ex_src : buffer A := fun p => of_int (2 * p + 1).

(** scale = 1, shift = 0 *)
Definition ex_scaleshift : buffer A := fun p => of_int (1 - p).

Definition zeros : buffer A := fun _ => of_int 0.

End Scenario.

(** ** Other configurations *)

(** A workspace descriptor with four elements of padding in front. *)
Definition padded_ws_cfg {A : Arith} : bnorm_conf A := {|
  MB := 2; C := 1; H := 1; W := 2;
  batch_norm_epsilon := dlit 0;
  src_pd := plain [2; 1; 1; 2];
  weights_pd := plain [2; 1];
  diff_src_pd := plain [2; 1; 1; 2];
  diff_weights_pd := plain [2; 1];
  workspace_pd := {| off := fun idx => row_major [2] idx 0 + 4 |}
|}.

(** Two channels of one element each, and a workspace descriptor of stride 2. *)
Definition strided_ws_cfg {A : Arith} : bnorm_conf A := {|
  MB := 1; C := 2; H := 1; W := 1;
  batch_norm_epsilon := dlit 0;
  src_pd := plain [1; 2; 1; 1];
  weights_pd := plain [2; 2];
  diff_src_pd := plain [1; 2; 1; 1];
  diff_weights_pd := plain [2; 2];
  workspace_pd := {| off := fun idx => 2 * row_major [4] idx 0 |}
|}.

Definition ones {A : Arith} : buffer A := fun _ => of_int 1.

(** Two channels of one element each, dense descriptors. *)
Definition two_channel_cfg {A : Arith} : bnorm_conf A := {|
  MB := 1; C := 2; H := 1; W := 1;
  batch_norm_epsilon := dlit 1;
  src_pd := plain [1; 2; 1; 1];
  weights_pd := plain [2; 2];
  diff_src_pd := plain [1; 2; 1; 1];
  diff_weights_pd := plain [2; 2];
  workspace_pd := plain [4]
|}.

(** The same shape with other descriptors: data with stride 2 behind one
    element of padding, (2, C) buffers column by column, the workspace behind
    four elements of padding. *)
Definition relaid_cfg {A : Arith} : bnorm_conf A := {|
  MB := 1; C := 2; H := 1; W := 1;
  batch_norm_epsilon := dlit 1;
  src_pd := {| off := fun idx => 2 * row_major [1; 2; 1; 1] idx 0 + 1 |};
  weights_pd := {| off := fun idx => match idx with [r; c] => c * 2 + r | _ => 0 end |};
  diff_src_pd := {| off := fun idx => 2 * row_major [1; 2; 1; 1] idx 0 + 1 |};
  diff_weights_pd := {| off := fun idx => match idx with [r; c] => c * 2 + r | _ => 0 end |};
  workspace_pd := {| off := fun idx => row_major [4] idx 0 + 4 |}
|}.

(** Exchange of the two channels in a dense buffer of two channels per row. *)
Definition swap_channels {A : Arith} (x : buffer A) : buffer A :=
  fun p => x (if Z.even p then p + 1 else p - 1).

(** The contents of dense buffers in the layouts of [relaid_cfg]. *)
Definition relaid_data {A : Arith} (x : buffer A) : buffer A := fun p => x ((p - 1) / 2).
Definition relaid_rows {A : Arith} (x : buffer A) : buffer A :=
  fun p => x (if p =? 1 then 2 else if p =? 2 then 1 else p).
Definition relaid_ws {A : Arith} (x : buffer A) : buffer A := fun p => x (p - 4).

(** One channel of ten elements, eps = 1. *)
Definition ten_element_cfg {A : Arith} : bnorm_conf A := {|
  MB := 10; C := 1; H := 1; W := 1;
  batch_norm_epsilon := dlit 1;
  src_pd := plain [10; 1; 1; 1];
  weights_pd := plain [2; 1];
  diff_src_pd := plain [10; 1; 1; 1];
  diff_weights_pd := plain [2; 1];
  workspace_pd := plain [2]
|}.

(** An empty batch: N = 0, one channel. *)
Definition empty_batch_cfg {A : Arith} : bnorm_conf A := {|
  MB := 0; C := 1; H := 1; W := 2;
  batch_norm_epsilon := dlit 0;
  src_pd := plain [0; 1; 1; 2];
  weights_pd := plain [2; 1];
  diff_src_pd := plain [0; 1; 1; 2];
  diff_weights_pd := plain [2; 1];
  workspace_pd := plain [2]
|}.

(** The binary32 number nearest to 1/10. *)
Definition tenth : spec_float := S754_finite false 13421773 (-27).

(** diff_dst = [2^24, 1, 1, 1, ...] *)
Definition big_then_ones {A : Arith} : buffer A :=
  fun p => if p =? 0 then of_int 16777216 else of_int 1.

(** A workspace with mean 0 at offset 0 and second statistic 1 at offset 1. *)
Definition unit_ws {A : Arith} : buffer A := fun p => of_int p.

(** ** Addressing of the workspace through its descriptor *)

(** The reading of "the workspace is addressed through its descriptor" for
    the forward kernel: after a call in training mode the two statistics of
    channel c are found at the offsets the workspace descriptor gives for the
    logical indices c and C + c (the descriptor is applied to such indices
    in [execute_backward]). *)
Definition fwd_ws_through_descriptor {A : Arith} (cfg : bnorm_conf A)
    (src scaleshift dst ws : buffer A) : Prop :=
  exists ws',
    snd (execute_forward cfg src scaleshift dst (Some ws)) = Some ws'
    /\ forall c, 0 <= c < C cfg ->
         ws' (off (workspace_pd cfg) [c]) = fwd_mean cfg src c
         /\ ws' (off (workspace_pd cfg) [C cfg + c]) = fwd_invstd cfg src c.

(** The same reading for the backward kernel: diff_src depends on the
    workspace only through the elements at the offsets the descriptor gives
    for the logical indices 0 .. 2C-1. *)
Definition bwd_ws_through_descriptor {A : Arith} (cfg : bnorm_conf A)
    (src diff_dst scaleshift diff_src : buffer A) : Prop :=
  forall ws1 ws2 : buffer A,
    (forall i, 0 <= i < 2 * C cfg ->
       ws1 (off (workspace_pd cfg) [i]) = ws2 (off (workspace_pd cfg) [i])) ->
    buf_eq (fst (execute_backward cfg src diff_dst scaleshift ws1 diff_src None))
           (fst (execute_backward cfg src diff_dst scaleshift ws2 diff_src None)).

(** * Loops as folds over index lists *)

Lemma range_In (n i : Z) : In i (range n) <-> 0 <= i < n.
Proof.
  unfold range. rewrite in_map_iff. split.
  - intros [k [<- Hk]]. apply in_seq in Hk. lia.
  - intros Hi. exists (Z.to_nat i). split; [lia|]. apply in_seq. lia.
Qed.

Lemma range_NoDup (n : Z) : NoDup (range n).
Proof.
  unfold range. apply Finite.Injective_map_NoDup.
  - intros a b Hab. lia.
  - apply seq_NoDup.
Qed.

Lemma range_length (n : Z) : 0 <= n -> Z.of_nat (length (range n)) = n.
Proof. intros Hn. unfold range. rewrite length_map, length_seq. lia. Qed.

Lemma range_nonpos (n : Z) : n <= 0 -> range n = [].
Proof.
  intros Hn. unfold range. replace (Z.to_nat n) with 0%nat by lia. reflexivity.
Qed.

Lemma fold_left_flat_map {S T U : Type} (f : S -> U -> S) (g : T -> list U)
    (l : list T) (s : S) :
  fold_left f (flat_map g l) s = fold_left (fun s t => fold_left f (g t) s) l s.
Proof.
  revert s. induction l as [|t l IH]; intros s; simpl; [reflexivity|].
  now rewrite fold_left_app, IH.
Qed.

Lemma fold_left_map {S T U : Type} (f : S -> U -> S) (g : T -> U) (l : list T) (s : S) :
  fold_left f (map g l) s = fold_left (fun s t => f s (g t)) l s.
Proof. revert s. induction l as [|t l IH]; intros s; simpl; auto. Qed.

Lemma fold_left_ext_in {S T : Type} (f g : S -> T -> S) (l : list T) (s : S) :
  (forall a t, In t l -> f a t = g a t) -> fold_left f l s = fold_left g l s.
Proof.
  revert s. induction l as [|t l IH]; intros s Hfg; simpl; [reflexivity|].
  rewrite Hfg by (now left). apply IH. intros a u Hu. apply Hfg. now right.
Qed.

(** The loop nest runs its body over [nhw_order]. *)
Lemma for_nhw_fold {S : Type} (N H W : Z) (body : Z -> Z -> Z -> S -> S) (s : S) :
  for_nhw N H W body s
  = fold_left (fun s t => let '(n, h, w) := t in body n h w s) (nhw_order N H W) s.
Proof.
  unfold for_nhw, for_, nhw_order.
  rewrite fold_left_flat_map. apply fold_left_ext_in. intros a n _.
  rewrite fold_left_flat_map. apply fold_left_ext_in. intros b h _.
  now rewrite fold_left_map.
Qed.

Lemma nhw_order_In (N H W n h w : Z) :
  In (n, h, w) (nhw_order N H W) <-> 0 <= n < N /\ 0 <= h < H /\ 0 <= w < W.
Proof.
  unfold nhw_order. rewrite in_flat_map. split.
  - intros [n' [Hn Hin]]. apply in_flat_map in Hin. destruct Hin as [h' [Hh Hin]].
    apply in_map_iff in Hin. destruct Hin as [w' [Heq Hw]].
    inversion Heq; subst. rewrite range_In in Hn, Hh, Hw. auto.
  - intros [Hn [Hh Hw]]. exists n. split; [now apply range_In|].
    apply in_flat_map. exists h. split; [now apply range_In|].
    apply in_map_iff. exists w. split; [reflexivity | now apply range_In].
Qed.

Lemma nhw_order_length (N H W : Z) :
  0 <= N -> 0 <= H -> 0 <= W -> Z.of_nat (length (nhw_order N H W)) = N * H * W.
Proof.
  intros HN HH HW. unfold nhw_order.
  assert (Hin : forall (l : list Z) (k : Z) (g : Z -> list (Z * Z * Z)),
             (forall x, Z.of_nat (length (g x)) = k) ->
             Z.of_nat (length (flat_map g l)) = Z.of_nat (length l) * k).
  { intros l k g Hg. induction l as [|x l IH]; [reflexivity|].
    cbn [flat_map]. change (length (x :: l)) with (S (length l)).
    rewrite length_app, Nat2Z.inj_add, IH, Hg, Nat2Z.inj_succ. ring. }
  rewrite (Hin _ (H * W)).
  - rewrite range_length by assumption. lia.
  - intros n. rewrite (Hin _ W).
    + rewrite range_length by assumption. lia.
    + intros h. rewrite length_map. now apply range_length.
Qed.

(** * Buffers *)

Section Buffers.

Context {A : Arith}.

Lemma store_eq (b : buffer A) p v : store b p v p = v.
Proof. unfold store. now rewrite Z.eqb_refl. Qed.

Lemma store_neq (b : buffer A) p q v : q <> p -> store b p v q = b q.
Proof. intros Hq. unfold store. now apply Z.eqb_neq in Hq as ->. Qed.

Lemma store_store (b : buffer A) p u v : buf_eq (store (store b p u) p v) (store b p v).
Proof. intros q. unfold store. now destruct (q =? p). Qed.

Lemma store_buf_eq (b b' : buffer A) p v :
  buf_eq b b' -> buf_eq (store b p v) (store b' p v).
Proof. intros Hb q. unfold store. now destruct (q =? p). Qed.

Lemma buf_eq_refl (b : buffer A) : buf_eq b b.
Proof. now intros p. Qed.

Lemma buf_eq_sym (b b' : buffer A) : buf_eq b b' -> buf_eq b' b.
Proof. intros Hb p. now rewrite Hb. Qed.

Lemma buf_eq_trans (b1 b2 b3 : buffer A) : buf_eq b1 b2 -> buf_eq b2 b3 -> buf_eq b1 b3.
Proof. intros H12 H23 p. now rewrite H12. Qed.

Lemma write_all_app l1 l2 (b : buffer A) :
  write_all (l1 ++ l2) b = write_all l2 (write_all l1 b).
Proof. unfold write_all. apply fold_left_app. Qed.

Lemma write_all_buf_eq l (b b' : buffer A) :
  buf_eq b b' -> buf_eq (write_all l b) (write_all l b').
Proof.
  revert b b'. induction l as [|[k v] l IH]; intros b b' Hb; simpl; [assumption|].
  apply IH. now apply store_buf_eq.
Qed.

(** An offset that no write names keeps its contents. *)
Lemma write_all_notin l (b : buffer A) p :
  ~ In p (map fst l) -> write_all l b p = b p.
Proof.
  revert b. induction l as [|[k v] l IH]; intros b Hp; simpl in *; [reflexivity|].
  rewrite IH by tauto. apply store_neq. intros ->. tauto.
Qed.

(** When no offset is written twice, each write is visible at the end. *)
Lemma write_all_In l (b : buffer A) p v :
  NoDup (map fst l) -> In (p, v) l -> write_all l b p = v.
Proof.
  revert b. induction l as [|[k u] l IH]; intros b Hnd Hin; simpl in *; [contradiction|].
  inversion Hnd as [|? ? Hk Hnd']; subst. destruct Hin as [Heq | Hin].
  - inversion Heq; subst. rewrite write_all_notin by assumption. apply store_eq.
  - now apply IH.
Qed.

(** The contents of a written offset do not depend on what was there. *)
Lemma write_all_base l (b b' : buffer A) p :
  In p (map fst l) -> write_all l b p = write_all l b' p.
Proof.
  revert b b'. induction l as [|[k v] l IH]; intros b b' Hin; simpl in *; [contradiction|].
  destruct (in_dec Z.eq_dec p (map fst l)) as [Hl | Hl].
  - now apply IH.
  - rewrite !write_all_notin by assumption.
    destruct Hin as [-> | Hin]; [|contradiction]. now rewrite !store_eq.
Qed.

(** Writes to distinct offsets can be performed in any order. *)
Lemma write_all_perm l l' (b : buffer A) :
  NoDup (map fst l) -> Permutation l l' -> buf_eq (write_all l b) (write_all l' b).
Proof.
  intros Hnd Hperm p.
  assert (Hnd' : NoDup (map fst l')).
  { eapply Permutation_NoDup; [|exact Hnd]. now apply Permutation_map. }
  destruct (in_dec Z.eq_dec p (map fst l)) as [Hin | Hout].
  - apply in_map_iff in Hin. destruct Hin as [[k v] [Hk Hin]]. simpl in Hk. subst k.
    rewrite (write_all_In l b p v Hnd Hin).
    symmetry. apply write_all_In; [assumption|]. eapply Permutation_in; eassumption.
  - rewrite !write_all_notin; [reflexivity | | assumption].
    intros Hin. apply Hout. eapply Permutation_in; [|exact Hin].
    apply Permutation_map. now apply Permutation_sym.
Qed.

End Buffers.

(** * What one forward iteration computes *)

Section ForwardChannel.

Context {A : Arith}.
Variable cfg : bnorm_conf A.
Variables src scaleshift : buffer A.

(** *** Inference mode: the statistics live in the locals *)

Lemma mean_loop_inference c l d vm vv :
  fold_left (fun s t => let '(n, h, w) := t in
               set_mean cfg c (fadd (get_mean cfg c s) (src (off (src_pd cfg) [n; c; h; w]))) s)
            l (mk_fwd d None vm vv)
  = mk_fwd d None (fold_left (fun a t => fadd a (src_at cfg src c t)) l vm) vv.
Proof.
  revert vm. induction l as [|[[n h] w] l IH]; intros vm; simpl; [reflexivity|].
  unfold set_mean at 2, get_mean at 2. simpl. apply IH.
Qed.

Lemma variance_loop_inference c l d vm vv :
  fold_left (fun s t => let '(n, h, w) := t in
               set_variance cfg c
                 (fadd (get_variance cfg c s)
                       (fmul (fsub (src (off (src_pd cfg) [n; c; h; w])) (get_mean cfg c s))
                             (fsub (src (off (src_pd cfg) [n; c; h; w])) (get_mean cfg c s)))) s)
            l (mk_fwd d None vm vv)
  = mk_fwd d None vm
      (fold_left (fun a t => fadd a (fmul (fsub (src_at cfg src c t) vm) (fsub (src_at cfg src c t) vm))) l vv).
Proof.
  revert vv. induction l as [|[[n h] w] l IH]; intros vv; simpl; [reflexivity|].
  unfold set_variance at 2, get_variance at 2, get_mean at 2. simpl. apply IH.
Qed.

(** The last loop nest only writes [dst]; it holds in both modes. *)
Lemma dst_loop c l d ws vm vv :
  fold_left (fun s t => let '(n, h, w) := t in
               set_dst (off (src_pd cfg) [n; c; h; w])
                 (fadd (fmul (fmul (scaleshift (off (weights_pd cfg) [0; c]))
                                   (fsub (src (off (src_pd cfg) [n; c; h; w]))
                                         (get_mean cfg c s)))
                             (get_variance cfg c s))
                       (scaleshift (off (weights_pd cfg) [1; c]))) s)
            l (mk_fwd d ws vm vv)
  = mk_fwd
      (write_all
         (map (fun t => (let '(n, h, w) := t in off (src_pd cfg) [n; c; h; w],
                         fadd (fmul (fmul (scaleshift (off (weights_pd cfg) [0; c]))
                                          (fsub (src_at cfg src c t)
                                                (get_mean cfg c (mk_fwd d ws vm vv))))
                                    (get_variance cfg c (mk_fwd d ws vm vv)))
                              (scaleshift (off (weights_pd cfg) [1; c])))) l) d)
      ws vm vv.
Proof.
  revert d. induction l as [|[[n h] w] l IH]; intros d; simpl; [reflexivity|].
  unfold set_dst at 2. simpl. rewrite IH. reflexivity.
Qed.

(** *** Training mode: the statistics live in the workspace *)

Lemma mean_loop_training c l d ws vm vv :
  exists ws',
    fold_left (fun s t => let '(n, h, w) := t in
                 set_mean cfg c (fadd (get_mean cfg c s) (src (off (src_pd cfg) [n; c; h; w]))) s)
              l (mk_fwd d (Some ws) vm vv)
    = mk_fwd d (Some ws') vm vv
    /\ buf_eq ws' (store ws (fwd_ws_mean cfg + c)
                     (fold_left (fun a t => fadd a (src_at cfg src c t)) l (ws (fwd_ws_mean cfg + c)))).
Proof.
  revert ws. induction l as [|[[n h] w] l IH]; intros ws; simpl.
  - exists ws. split; [reflexivity|]. intros p. unfold store.
    match goal with |- context [p =? ?k] => destruct (Z.eqb_spec p k) end; congruence.
  - unfold set_mean at 2, get_mean at 2. simpl.
    destruct (IH (store ws (fwd_ws_mean cfg + c)
                    (fadd (ws (fwd_ws_mean cfg + c)) (src (off (src_pd cfg) [n; c; h; w])))))
      as [ws' [Hrun Hws']].
    exists ws'. split; [exact Hrun|].
    eapply buf_eq_trans; [exact Hws'|]. rewrite store_eq. apply store_store.
Qed.

Lemma variance_loop_training c l d ws vm vv :
  C cfg <> 0 ->
  exists ws',
    fold_left (fun s t => let '(n, h, w) := t in
                 set_variance cfg c
                 (fadd (get_variance cfg c s)
                       (fmul (fsub (src (off (src_pd cfg) [n; c; h; w])) (get_mean cfg c s))
                             (fsub (src (off (src_pd cfg) [n; c; h; w])) (get_mean cfg c s)))) s)
              l (mk_fwd d (Some ws) vm vv)
    = mk_fwd d (Some ws') vm vv
    /\ buf_eq ws' (store ws (fwd_ws_variance cfg + c)
                     (fold_left (fun a t => fadd a (fmul (fsub (src_at cfg src c t) (ws (fwd_ws_mean cfg + c)))
                                                         (fsub (src_at cfg src c t) (ws (fwd_ws_mean cfg + c)))))
                                l (ws (fwd_ws_variance cfg + c)))).
Proof.
  intros HC. revert ws. induction l as [|[[n h] w] l IH]; intros ws; simpl.
  - exists ws. split; [reflexivity|]. intros p. unfold store.
    match goal with |- context [p =? ?k] => destruct (Z.eqb_spec p k) end; congruence.
  - unfold set_variance at 2, get_variance at 2, get_mean at 2. simpl.
    match goal with |- context [store ws ?k ?v] => destruct (IH (store ws k v)) as [ws' [Hrun Hws']] end.
    exists ws'. split; [exact Hrun|].
    eapply buf_eq_trans; [exact Hws'|]. rewrite store_eq.
    rewrite store_neq by (unfold fwd_ws_mean, fwd_ws_variance; lia).
    apply store_store.
Qed.

(** *** The whole iteration *)

Lemma set_mean_None c v d vm vv :
  set_mean cfg c v (mk_fwd d None vm vv) = mk_fwd d None v vv.
Proof. reflexivity. Qed.

Lemma set_variance_None c v d vm vv :
  set_variance cfg c v (mk_fwd d None vm vv) = mk_fwd d None vm v.
Proof. reflexivity. Qed.

Lemma get_mean_None c d vm vv : get_mean cfg c (mk_fwd d None vm vv) = vm.
Proof. reflexivity. Qed.

Lemma get_variance_None c d vm vv : get_variance cfg c (mk_fwd d None vm vv) = vv.
Proof. reflexivity. Qed.

Lemma set_mean_Some c v d ws vm vv :
  set_mean cfg c v (mk_fwd d (Some ws) vm vv)
  = mk_fwd d (Some (store ws (fwd_ws_mean cfg + c) v)) vm vv.
Proof. reflexivity. Qed.

Lemma set_variance_Some c v d ws vm vv :
  set_variance cfg c v (mk_fwd d (Some ws) vm vv)
  = mk_fwd d (Some (store ws (fwd_ws_variance cfg + c) v)) vm vv.
Proof. reflexivity. Qed.

Lemma get_mean_Some c d ws vm vv :
  get_mean cfg c (mk_fwd d (Some ws) vm vv) = ws (fwd_ws_mean cfg + c).
Proof. reflexivity. Qed.

Lemma get_variance_Some c d ws vm vv :
  get_variance cfg c (mk_fwd d (Some ws) vm vv) = ws (fwd_ws_variance cfg + c).
Proof. reflexivity. Qed.

Lemma fwd_channel_inference c d vm vv :
  fwd_channel cfg src scaleshift c (mk_fwd d None vm vv)
  = mk_fwd (write_all (fwd_dst_writes cfg src scaleshift c) d) None (fwd_mean cfg src c) (fwd_invstd cfg src c).
Proof.
  unfold fwd_channel. cbv zeta. rewrite !for_nhw_fold.
  rewrite set_variance_None, get_variance_None, set_mean_None.
  rewrite mean_loop_inference, get_mean_None, set_mean_None.
  rewrite variance_loop_inference, get_variance_None, set_variance_None.
  rewrite dst_loop, get_mean_None, get_variance_None.
  reflexivity.
Qed.

Lemma fwd_channel_training c d ws vm vv :
  C cfg <> 0 ->
  exists ws',
    fwd_channel cfg src scaleshift c (mk_fwd d (Some ws) vm vv)
    = mk_fwd (write_all (fwd_dst_writes cfg src scaleshift c) d) (Some ws') vm vv
    /\ buf_eq ws' (write_all (fwd_ws_writes cfg src c) ws).
Proof.
  intros HC.
  assert (Hcell : fwd_ws_variance cfg + c <> fwd_ws_mean cfg + c)
    by (unfold fwd_ws_mean, fwd_ws_variance; lia).
  unfold fwd_channel. cbv zeta. rewrite !for_nhw_fold.
  rewrite set_variance_Some, get_variance_Some, set_mean_Some, store_eq.
  set (ws2 := store (store ws _ _) _ _).
  destruct (mean_loop_training c (nhw_order (MB cfg) (H cfg) (W cfg)) d ws2 vm vv)
    as [ws3 [-> H3]].
  rewrite get_mean_Some, set_mean_Some.
  set (ws4 := store ws3 _ _).
  destruct (variance_loop_training c (nhw_order (MB cfg) (H cfg) (W cfg)) d ws4 vm vv HC)
    as [ws5 [-> H5]].
  rewrite get_variance_Some, set_variance_Some.
  set (ws6 := store ws5 _ _).
  rewrite dst_loop, get_mean_Some, get_variance_Some.
  assert (H4m : ws4 (fwd_ws_mean cfg + c) = fwd_mean cfg src c).
  { subst ws4. rewrite store_eq, H3, store_eq. subst ws2. rewrite store_eq. reflexivity. }
  assert (H4v : ws4 (fwd_ws_variance cfg + c) = of_int 0).
  { subst ws4. rewrite store_neq, H3, store_neq by assumption.
    subst ws2. rewrite store_neq by assumption. apply store_eq. }
  assert (H5v : ws5 (fwd_ws_variance cfg + c) = fwd_sqsum cfg src c).
  { rewrite H5, store_eq, H4m, H4v. reflexivity. }
  assert (H6m : ws6 (fwd_ws_mean cfg + c) = fwd_mean cfg src c).
  { subst ws6. rewrite store_neq, H5, store_neq by congruence. exact H4m. }
  assert (H6v : ws6 (fwd_ws_variance cfg + c) = fwd_invstd cfg src c).
  { subst ws6. rewrite store_eq, H5v. reflexivity. }
  exists ws6. split.
  - rewrite H6m, H6v. reflexivity.
  - intros p. unfold fwd_ws_writes, write_all. cbn [fold_left fst snd].
    destruct (Z.eq_dec p (fwd_ws_mean cfg + c)) as [-> | Hm].
    { now rewrite store_eq. }
    rewrite (store_neq _ _ p) by assumption.
    destruct (Z.eq_dec p (fwd_ws_variance cfg + c)) as [-> | Hv].
    { now rewrite store_eq. }
    rewrite (store_neq _ _ p) by assumption.
    subst ws6. rewrite store_neq, H5, store_neq by assumption.
    subst ws4. rewrite store_neq, H3, store_neq by assumption.
    subst ws2. now rewrite !store_neq by assumption.
Qed.

End ForwardChannel.

(** * Lists without duplicates *)

Lemma NoDup_flat_map {T U : Type} (g : T -> list U) (l : list T) :
  NoDup l ->
  (forall x, In x l -> NoDup (g x)) ->
  (forall x y u, In x l -> In y l -> In u (g x) -> In u (g y) -> x = y) ->
  NoDup (flat_map g l).
Proof.
  induction l as [|x l IH]; intros Hnd Hg Hdisj; simpl; [constructor|].
  inversion Hnd as [|? ? Hx Hnd']; subst.
  apply NoDup_app.
  - apply Hg. now left.
  - apply IH; [assumption | |].
    + intros y Hy. apply Hg. now right.
    + intros y z u Hy Hz. apply Hdisj; now right.
  - intros u Hu Hu'. apply in_flat_map in Hu'. destruct Hu' as [y [Hy Huy]].
    assert (x = y) by (apply (Hdisj x y u); [now left | now right | assumption..]).
    subst. contradiction.
Qed.

Lemma nhw_order_NoDup (N H W : Z) : NoDup (nhw_order N H W).
Proof.
  unfold nhw_order. apply NoDup_flat_map.
  - apply range_NoDup.
  - intros n _. apply NoDup_flat_map.
    + apply range_NoDup.
    + intros h _. apply Finite.Injective_map_NoDup; [|apply range_NoDup].
      intros a b Hab. now inversion Hab.
    + intros h h' [[n1 h1] w1] _ _ Hu Hu'.
      apply in_map_iff in Hu. destruct Hu as [? [Hu _]].
      apply in_map_iff in Hu'. destruct Hu' as [? [Hu' _]]. congruence.
  - intros n n' [[n1 h1] w1] _ _ Hu Hu'.
    apply in_flat_map in Hu. destruct Hu as [? [_ Hu]].
    apply in_map_iff in Hu. destruct Hu as [? [Hu _]].
    apply in_flat_map in Hu'. destruct Hu' as [? [_ Hu']].
    apply in_map_iff in Hu'. destruct Hu' as [? [Hu' _]]. congruence.
Qed.

(** * The writes of a loop nest to a 4-D buffer *)

Section ChannelWrites.

Context {A : Arith}.
Variable d : memory_desc_wrapper.
Variables N C H W : Z.
Variable val : Z -> Z * Z * Z -> data_t.

Lemma chan_writes_keys c p :
  In p (map fst (chan_writes d N H W val c)) <->
  exists n h w, 0 <= n < N /\ 0 <= h < H /\ 0 <= w < W /\ p = off d [n; c; h; w].
Proof.
  unfold chan_writes. rewrite map_map. cbn [fst]. rewrite in_map_iff. split.
  - intros [[[n h] w] [Hp Hin]]. apply nhw_order_In in Hin. exists n, h, w. intuition.
  - intros [n [h [w [Hn [Hh [Hw ->]]]]]]. exists (n, h, w). split; [reflexivity|].
    now apply nhw_order_In.
Qed.

Lemma chan_writes_In c n h w :
  0 <= n < N -> 0 <= h < H -> 0 <= w < W ->
  In (off d [n; c; h; w], val c (n, h, w)) (chan_writes d N H W val c).
Proof.
  intros Hn Hh Hw. unfold chan_writes. apply in_map_iff.
  exists (n, h, w). split; [reflexivity|]. now apply nhw_order_In.
Qed.

(** Under a layout no offset is written twice, whatever the order of the
    channels. *)
Lemma chan_writes_NoDup cs :
  layout4 d N C H W ->
  NoDup cs -> (forall c, In c cs -> 0 <= c < C) ->
  NoDup (map fst (flat_map (chan_writes d N H W val) cs)).
Proof.
  intros Hlay Hnd Hcs. rewrite flat_map_concat_map, concat_map, map_map, <- flat_map_concat_map.
  apply NoDup_flat_map; [assumption | |].
  - intros c Hc. unfold chan_writes. rewrite map_map. cbn [fst].
    apply Finite.Injective_map_NoDup_in; [|apply nhw_order_NoDup].
    intros [[n h] w] [[n' h'] w'] Hin Hin' Heq.
    apply nhw_order_In in Hin, Hin'. specialize (Hcs c Hc).
    destruct (Hlay n c h w n' c h' w') as [? [? [? ?]]]; try tauto. congruence.
  - intros c c' p Hc Hc' Hp Hp'.
    apply chan_writes_keys in Hp, Hp'.
    destruct Hp as [n [h [w [Hn [Hh [Hw ->]]]]]].
    destruct Hp' as [n' [h' [w' [Hn' [Hh' [Hw' Heq]]]]]].
    apply Hlay in Heq; auto. tauto.
Qed.

(** The element at a logical index once all the channels of [cs] are done. *)
Lemma chan_writes_at cs b n c h w :
  layout4 d N C H W ->
  NoDup cs -> (forall c, In c cs -> 0 <= c < C) -> In c cs ->
  0 <= n < N -> 0 <= h < H -> 0 <= w < W ->
  write_all (flat_map (chan_writes d N H W val) cs) b (off d [n; c; h; w]) = val c (n, h, w).
Proof.
  intros Hlay Hnd Hcs Hc Hn Hh Hw. apply write_all_In.
  - now apply chan_writes_NoDup.
  - apply in_flat_map. exists c. split; [assumption | now apply chan_writes_In].
Qed.

(** An element outside the channels of [cs] is left alone. *)
Lemma chan_writes_frame cs b p :
  (forall n c h w, In c cs -> 0 <= n < N -> 0 <= h < H -> 0 <= w < W ->
                   p <> off d [n; c; h; w]) ->
  write_all (flat_map (chan_writes d N H W val) cs) b p = b p.
Proof.
  intros Hp. apply write_all_notin. intros Hin.
  apply in_map_iff in Hin. destruct Hin as [[k v] [Hk Hin]]. cbn in Hk. subst k.
  apply in_flat_map in Hin. destruct Hin as [c [Hc Hin]].
  assert (Hkey : In p (map fst (chan_writes d N H W val c))).
  { apply in_map_iff. now exists (p, v). }
  apply chan_writes_keys in Hkey. destruct Hkey as [n [h [w [Hn [Hh [Hw Heq]]]]]].
  now apply (Hp n c h w).
Qed.

End ChannelWrites.

(** * What the forward loop over the channels computes *)

Section ForwardRun.

Context {A : Arith}.
Variable cfg : bnorm_conf A.
Variables src scaleshift : buffer A.

Lemma fwd_run_inference cs d vm vv :
  exists vm' vv',
    fwd_run_channels cfg src scaleshift cs (mk_fwd d None vm vv)
    = mk_fwd (write_all (flat_map (fwd_dst_writes cfg src scaleshift) cs) d) None vm' vv'.
Proof.
  revert d vm vv. induction cs as [|c cs IH]; intros d vm vv.
  - exists vm, vv. reflexivity.
  - unfold fwd_run_channels in *. cbn [fold_left flat_map].
    rewrite fwd_channel_inference, write_all_app. apply IH.
Qed.

Lemma fwd_run_training cs d ws vm vv :
  C cfg <> 0 ->
  exists ws',
    fwd_run_channels cfg src scaleshift cs (mk_fwd d (Some ws) vm vv)
    = mk_fwd (write_all (flat_map (fwd_dst_writes cfg src scaleshift) cs) d) (Some ws') vm vv
    /\ buf_eq ws' (write_all (flat_map (fwd_ws_writes cfg src) cs) ws).
Proof.
  intros HC. revert d ws. induction cs as [|c cs IH]; intros d ws.
  - exists ws. split; [reflexivity | apply buf_eq_refl].
  - unfold fwd_run_channels in *. cbn [fold_left flat_map].
    destruct (fwd_channel_training cfg src scaleshift c d ws vm vv HC) as [ws1 [-> H1]].
    destruct (IH (write_all (fwd_dst_writes cfg src scaleshift c) d) ws1) as [ws' [-> H']].
    exists ws'. split.
    + now rewrite write_all_app.
    + rewrite write_all_app. eapply buf_eq_trans; [exact H'|].
      now apply write_all_buf_eq.
Qed.

(** [dst] after the call: the writes of the channels, one channel after the
    other; the mode does not matter. *)
Lemma execute_forward_dst dst ws :
  fst (execute_forward cfg src scaleshift dst ws)
  = write_all (flat_map (fwd_dst_writes cfg src scaleshift) (range (C cfg))) dst.
Proof.
  unfold execute_forward, fwd_init. destruct ws as [ws|].
  - destruct (Z.eq_dec (C cfg) 0) as [HC | HC].
    + rewrite HC. reflexivity.
    + destruct (fwd_run_training (range (C cfg)) dst ws (of_int 0) (of_int 0) HC)
        as [ws' [-> _]]. reflexivity.
  - destruct (fwd_run_inference (range (C cfg)) dst (of_int 0) (of_int 0))
      as [vm' [vv' ->]]. reflexivity.
Qed.

(** The workspace after the call. *)
Lemma execute_forward_ws dst ws :
  obuf_eq (snd (execute_forward cfg src scaleshift dst ws))
          (option_map (write_all (flat_map (fwd_ws_writes cfg src) (range (C cfg)))) ws).
Proof.
  unfold execute_forward, fwd_init. destruct ws as [ws|]; cbn [option_map].
  - destruct (Z.eq_dec (C cfg) 0) as [HC | HC].
    + rewrite HC. cbn. apply buf_eq_refl.
    + destruct (fwd_run_training (range (C cfg)) dst ws (of_int 0) (of_int 0) HC)
        as [ws' [-> H']]. exact H'.
  - destruct (fwd_run_inference (range (C cfg)) dst (of_int 0) (of_int 0))
      as [vm' [vv' ->]]. exact I.
Qed.

Lemma fwd_dst_writes_chan c :
  fwd_dst_writes cfg src scaleshift c
  = chan_writes (src_pd cfg) (MB cfg) (H cfg) (W cfg) (fwd_out cfg src scaleshift) c.
Proof. reflexivity. Qed.

(** The element of [dst] at a logical index after the call. *)
Lemma execute_forward_dst_at dst ws n c h w :
  layout4 (src_pd cfg) (MB cfg) (C cfg) (H cfg) (W cfg) ->
  0 <= n < MB cfg -> 0 <= c < C cfg -> 0 <= h < H cfg -> 0 <= w < W cfg ->
  fst (execute_forward cfg src scaleshift dst ws) (off (src_pd cfg) [n; c; h; w])
  = fwd_out cfg src scaleshift c (n, h, w).
Proof.
  intros Hlay Hn Hc Hh Hw. rewrite execute_forward_dst.
  apply (chan_writes_at (src_pd cfg) (MB cfg) (C cfg) (H cfg) (W cfg));
    auto using range_NoDup.
  - intros c'. apply range_In.
  - now apply range_In.
Qed.

(** The workspace cells of the channels do not overlap. *)
Lemma fwd_ws_writes_NoDup cs :
  NoDup cs -> (forall c, In c cs -> 0 <= c < C cfg) ->
  NoDup (map fst (flat_map (fwd_ws_writes cfg src) cs)).
Proof.
  intros Hnd Hcs. rewrite flat_map_concat_map, concat_map, map_map, <- flat_map_concat_map.
  unfold fwd_ws_writes, fwd_ws_mean, fwd_ws_variance. cbn [map fst].
  apply NoDup_flat_map; [assumption | |].
  - intros c Hc. specialize (Hcs c Hc). constructor; [|constructor; [tauto | constructor]].
    intros [Heq | []]. lia.
  - intros c c' p Hc Hc' Hp Hp'. pose proof (Hcs c Hc). pose proof (Hcs c' Hc').
    cbn in Hp, Hp'. lia.
Qed.

(** The workspace after a call in training mode: the two statistics of every
    channel, and nothing else. *)
Lemma execute_forward_ws_at dst ws :
  exists ws',
    snd (execute_forward cfg src scaleshift dst (Some ws)) = Some ws'
    /\ (forall c, 0 <= c < C cfg ->
          ws' (fwd_ws_mean cfg + c) = fwd_mean cfg src c
          /\ ws' (fwd_ws_variance cfg + c) = fwd_invstd cfg src c)
    /\ (forall p, ~ 0 <= p < 2 * C cfg -> ws' p = ws p).
Proof.
  pose proof (execute_forward_ws dst (Some ws)) as Hws. cbn [option_map] in Hws.
  destruct (snd (execute_forward cfg src scaleshift dst (Some ws))) as [ws'|];
    [|contradiction].
  cbn [obuf_eq] in Hws. exists ws'. split; [reflexivity|].
  assert (Hnd : NoDup (map fst (flat_map (fwd_ws_writes cfg src) (range (C cfg))))).
  { apply fwd_ws_writes_NoDup; [apply range_NoDup|]. intros c. apply range_In. }
  split.
  - intros c Hc. rewrite !Hws.
    split; apply write_all_In; try assumption;
      apply in_flat_map; exists c; (split; [now apply range_In|]); cbn; auto.
  - intros p Hp. rewrite Hws. apply write_all_notin. intros Hin.
    apply in_map_iff in Hin. destruct Hin as [[k v] [Hk Hin]]. cbn in Hk. subst k.
    apply in_flat_map in Hin. destruct Hin as [c [Hc Hin]]. apply range_In in Hc.
    unfold fwd_ws_writes, fwd_ws_mean, fwd_ws_variance in Hin. cbn in Hin.
    destruct Hin as [Heq | [Heq | []]]; inversion Heq; lia.
Qed.

End ForwardRun.

(** * What one backward iteration computes *)

Section BackwardChannel.

Context {A : Arith}.
Variable cfg : bnorm_conf A.
Variables src diff_dst scaleshift ws : buffer A.

(** The accumulation loop keeps two independent running sums. *)
Lemma bwd_sums_fold c :
  bwd_sums cfg src diff_dst ws c
  = (fold_left (fun a t => fadd a (fmul (fsub (src_at cfg src c t) (bwd_mean cfg ws c))
                                        (diff_dst_at cfg diff_dst c t)))
               (nhw_order (MB cfg) (H cfg) (W cfg)) (of_double (dlit 0)),
     fold_left (fun a t => fadd a (diff_dst_at cfg diff_dst c t))
               (nhw_order (MB cfg) (H cfg) (W cfg)) (of_double (dlit 0))).
Proof.
  unfold bwd_sums, bwd_accumulate. rewrite for_nhw_fold.
  generalize (of_double (dlit 0)) at 1 3. generalize (of_double (dlit 0)).
  induction (nhw_order (MB cfg) (H cfg) (W cfg)) as [|[[n h] w] l IH]; intros b g;
    [reflexivity|].
  cbn [fold_left]. apply IH.
Qed.

Lemma set_diff_src_mk p v d dss :
  set_diff_src p v (mk_bwd d dss) = mk_bwd (store d p v) dss.
Proof. reflexivity. Qed.

(** The last loop nest: the second statement reads back what the first one
    has just stored. *)
Lemma diff_src_loop c (k1 k2 k3 k4 : data_t) (M : Z) l d dss :
  exists d',
    fold_left (fun s t => let '(n, h, w) := t in
                 set_diff_src (off (diff_src_pd cfg) [n; c; h; w])
                   (fmul (b_diff_src
                            (set_diff_src (off (diff_src_pd cfg) [n; c; h; w])
                               (fsub (fsub (diff_dst (off (diff_src_pd cfg) [n; c; h; w]))
                                           (fdiv k1 (of_int M)))
                                     (fdiv (fmul (fmul (fsub (src (off (src_pd cfg) [n; c; h; w])) k2)
                                                       k3) k4)
                                           (of_int M))) s)
                            (off (diff_src_pd cfg) [n; c; h; w]))
                         (fmul (scaleshift (off (weights_pd cfg) [0; c])) k4))
                   (set_diff_src (off (diff_src_pd cfg) [n; c; h; w])
                      (fsub (fsub (diff_dst (off (diff_src_pd cfg) [n; c; h; w]))
                                  (fdiv k1 (of_int M)))
                            (fdiv (fmul (fmul (fsub (src (off (src_pd cfg) [n; c; h; w])) k2) k3) k4)
                                  (of_int M))) s))
              l (mk_bwd d dss)
    = mk_bwd d' dss
    /\ buf_eq d'
         (write_all
            (map (fun t => (let '(n, h, w) := t in off (diff_src_pd cfg) [n; c; h; w],
                            fmul (fsub (fsub (diff_dst_at cfg diff_dst c t) (fdiv k1 (of_int M)))
                                       (fdiv (fmul (fmul (fsub (src_at cfg src c t) k2) k3) k4)
                                             (of_int M)))
                                 (fmul (scaleshift (off (weights_pd cfg) [0; c])) k4))) l) d).
Proof.
  revert d. induction l as [|[[n h] w] l IH]; intros d.
  - exists d. split; [reflexivity | apply buf_eq_refl].
  - cbn [fold_left map]. rewrite !set_diff_src_mk. cbn [b_diff_src].
    match goal with |- context [fold_left _ l (mk_bwd ?d1 dss)] =>
      destruct (IH d1) as [d' [Hrun Hd']] end.
    exists d'. split; [exact Hrun|].
    eapply buf_eq_trans; [exact Hd'|].
    unfold write_all at 2. cbn [fold_left fst snd]. apply write_all_buf_eq.
    rewrite store_eq. apply store_store.
Qed.

Lemma bwd_channel_eq c d dss :
  exists d',
    bwd_channel cfg src diff_dst scaleshift ws c (mk_bwd d dss)
    = mk_bwd d' (option_map (write_all (bwd_ss_writes cfg src diff_dst ws c)) dss)
    /\ buf_eq d' (write_all (bwd_src_writes cfg src diff_dst scaleshift ws c) d).
Proof.
  unfold bwd_channel. cbv zeta.
  fold (bwd_mean cfg ws c). fold (bwd_invstd cfg ws c). fold (bwd_sums cfg src diff_dst ws c).
  unfold bwd_ss_writes, bwd_src_writes, bwd_out, bwd_diff_gamma, bwd_diff_beta, bwd_gamma.
  destruct (bwd_sums cfg src diff_dst ws c) as [dg db]. cbn [fst snd].
  rewrite for_nhw_fold.
  destruct dss as [dss|]; cbn [b_diff_scaleshift b_diff_src option_map].
  - apply diff_src_loop.
  - apply diff_src_loop.
Qed.

End BackwardChannel.

(** * What the backward loop over the channels computes *)

Section BackwardRun.

Context {A : Arith}.
Variable cfg : bnorm_conf A.
Variables src diff_dst scaleshift ws : buffer A.

Lemma bwd_run_eq cs d dss :
  exists d',
    bwd_run_channels cfg src diff_dst scaleshift ws cs (mk_bwd d dss)
    = mk_bwd d' (option_map (write_all (flat_map (bwd_ss_writes cfg src diff_dst ws) cs)) dss)
    /\ buf_eq d' (write_all (flat_map (bwd_src_writes cfg src diff_dst scaleshift ws) cs) d).
Proof.
  revert d dss. induction cs as [|c cs IH]; intros d dss.
  - exists d. split; [now destruct dss | apply buf_eq_refl].
  - unfold bwd_run_channels in *. cbn [fold_left flat_map].
    destruct (bwd_channel_eq cfg src diff_dst scaleshift ws c d dss) as [d1 [-> H1]].
    destruct (IH d1 (option_map (write_all (bwd_ss_writes cfg src diff_dst ws c)) dss))
      as [d' [-> H']].
    exists d'. split.
    + f_equal. destruct dss as [dss|]; cbn [option_map]; [|reflexivity].
      now rewrite write_all_app.
    + rewrite write_all_app. eapply buf_eq_trans; [exact H'|].
      now apply write_all_buf_eq.
Qed.

(** [diff_src] after the call. *)
Lemma execute_backward_diff_src diff_src dss :
  buf_eq (fst (execute_backward cfg src diff_dst scaleshift ws diff_src dss))
         (write_all (flat_map (bwd_src_writes cfg src diff_dst scaleshift ws) (range (C cfg)))
                    diff_src).
Proof.
  unfold execute_backward.
  destruct (bwd_run_eq (range (C cfg)) diff_src dss) as [d' [-> H']]. exact H'.
Qed.

(** [diff_scaleshift] after the call. *)
Lemma execute_backward_diff_scaleshift diff_src dss :
  snd (execute_backward cfg src diff_dst scaleshift ws diff_src dss)
  = option_map (write_all (flat_map (bwd_ss_writes cfg src diff_dst ws) (range (C cfg)))) dss.
Proof.
  unfold execute_backward.
  destruct (bwd_run_eq (range (C cfg)) diff_src dss) as [d' [-> _]]. reflexivity.
Qed.

Lemma bwd_src_writes_chan c :
  bwd_src_writes cfg src diff_dst scaleshift ws c
  = chan_writes (diff_src_pd cfg) (MB cfg) (H cfg) (W cfg)
      (bwd_out cfg src diff_dst scaleshift ws) c.
Proof. reflexivity. Qed.

(** The element of [diff_src] at a logical index after the call. *)
Lemma execute_backward_diff_src_at diff_src dss n c h w :
  layout4 (diff_src_pd cfg) (MB cfg) (C cfg) (H cfg) (W cfg) ->
  0 <= n < MB cfg -> 0 <= c < C cfg -> 0 <= h < H cfg -> 0 <= w < W cfg ->
  fst (execute_backward cfg src diff_dst scaleshift ws diff_src dss)
      (off (diff_src_pd cfg) [n; c; h; w])
  = bwd_out cfg src diff_dst scaleshift ws c (n, h, w).
Proof.
  intros Hlay Hn Hc Hh Hw. rewrite execute_backward_diff_src.
  apply (chan_writes_at (diff_src_pd cfg) (MB cfg) (C cfg) (H cfg) (W cfg));
    auto using range_NoDup.
  - intros c'. apply range_In.
  - now apply range_In.
Qed.

(** No offset of [diff_scaleshift] is written twice under a layout. *)
Lemma bwd_ss_writes_NoDup cs :
  layout2 (diff_weights_pd cfg) (C cfg) ->
  NoDup cs -> (forall c, In c cs -> 0 <= c < C cfg) ->
  NoDup (map fst (flat_map (bwd_ss_writes cfg src diff_dst ws) cs)).
Proof.
  intros Hlay Hnd Hcs. rewrite flat_map_concat_map, concat_map, map_map, <- flat_map_concat_map.
  apply NoDup_flat_map; [assumption | |].
  - intros c Hc. specialize (Hcs c Hc). cbn. constructor; [|constructor; [tauto | constructor]].
    intros [Heq | []]. apply Hlay in Heq; lia.
  - intros c c' p Hc Hc' Hp Hp'. pose proof (Hcs c Hc). pose proof (Hcs c' Hc').
    cbn in Hp, Hp'.
    destruct Hp as [<- | [<- | []]]; destruct Hp' as [Heq | [Heq | []]];
      apply Hlay in Heq; lia.
Qed.

(** The two elements of channel [c] in [diff_scaleshift] after the call. *)
Lemma execute_backward_diff_scaleshift_at diff_src dss c :
  layout2 (diff_weights_pd cfg) (C cfg) ->
  0 <= c < C cfg ->
  exists dss',
    snd (execute_backward cfg src diff_dst scaleshift ws diff_src (Some dss)) = Some dss'
    /\ dss' (off (diff_weights_pd cfg) [0; c]) = bwd_diff_gamma cfg src diff_dst ws c
    /\ dss' (off (diff_weights_pd cfg) [1; c]) = bwd_diff_beta cfg src diff_dst ws c.
Proof.
  intros Hlay Hc. rewrite execute_backward_diff_scaleshift. cbn [option_map].
  eexists. split; [reflexivity|].
  assert (Hnd : NoDup (map fst (flat_map (bwd_ss_writes cfg src diff_dst ws) (range (C cfg))))).
  { apply bwd_ss_writes_NoDup; [assumption | apply range_NoDup |]. intros c'. apply range_In. }
  split; apply write_all_In; try assumption;
    apply in_flat_map; exists c; (split; [now apply range_In|]); cbn; auto.
Qed.

(** [diff_scaleshift] after a call with a non-null pointer: the two sums of
    every channel, and nothing else. *)
Lemma execute_backward_diff_scaleshift_frame diff_src dss :
  layout2 (diff_weights_pd cfg) (C cfg) ->
  exists dss',
    snd (execute_backward cfg src diff_dst scaleshift ws diff_src (Some dss)) = Some dss'
    /\ (forall c, 0 <= c < C cfg ->
          dss' (off (diff_weights_pd cfg) [0; c]) = bwd_diff_gamma cfg src diff_dst ws c
          /\ dss' (off (diff_weights_pd cfg) [1; c]) = bwd_diff_beta cfg src diff_dst ws c)
    /\ (forall p, (forall r c, 0 <= r < 2 -> 0 <= c < C cfg ->
                               p <> off (diff_weights_pd cfg) [r; c]) ->
                  dss' p = dss p).
Proof.
  intros Hlay. rewrite execute_backward_diff_scaleshift. cbn [option_map].
  eexists. split; [reflexivity|].
  assert (Hnd : NoDup (map fst (flat_map (bwd_ss_writes cfg src diff_dst ws) (range (C cfg))))).
  { apply bwd_ss_writes_NoDup; [assumption | apply range_NoDup |]. intros c'. apply range_In. }
  split.
  - intros c Hc.
    split; apply write_all_In; try assumption;
      apply in_flat_map; exists c; (split; [now apply range_In|]); cbn; auto.
  - intros p Hp. apply write_all_notin. intros Hin.
    apply in_map_iff in Hin. destruct Hin as [[k v] [Hk Hin]]. cbn in Hk. subst k.
    apply in_flat_map in Hin. destruct Hin as [c [Hc Hin]]. apply range_In in Hc.
    cbn in Hin. destruct Hin as [Heq | [Heq | []]]; inversion Heq as [[Hoff Hval]].
    + apply (Hp 0 c); [lia | assumption | now rewrite Hoff].
    + apply (Hp 1 c); [lia | assumption | now rewrite Hoff].
Qed.

End BackwardRun.

(** * The example scenario *)

Lemma ex_cfg_layout4 {A : Arith} :
  layout4 (src_pd (@ex_cfg A)) (MB (@ex_cfg A)) (C (@ex_cfg A)) (H (@ex_cfg A)) (W (@ex_cfg A)).
Proof.
  intros n c h w n' c' h' w'. cbn. lia.
Qed.

(** The dense layout of the scenario puts element (n, 0, 0, w) at offset 2n + w. *)
Lemma ex_forward_at (dst : buffer F32.arith) (ws : option (buffer F32.arith)) (n w : Z) :
  0 <= n < 2 -> 0 <= w < 2 ->
  fst (execute_forward ex_cfg ex_src ex_scaleshift dst ws) (2 * n + w)
  = fwd_out (@ex_cfg F32.arith) ex_src ex_scaleshift 0 (n, 0, w).
Proof.
  intros Hn Hw.
  rewrite <- (execute_forward_dst_at ex_cfg ex_src ex_scaleshift dst ws n 0 0 w);
    [| apply ex_cfg_layout4 | cbn; lia ..].
  f_equal. cbn [off src_pd ex_cfg plain row_major]. lia.
Qed.

(** * Binary32 values as real numbers *)

(** Evaluation of [SF2R] on a value that can be computed. *)
Ltac SF2R_eval :=
  repeat match goal with
         | |- context [SF2R ?x] =>
             let v := eval vm_compute in x in
             lazymatch v with
             | S754_finite ?s ?m ?e =>
                 let num := eval vm_compute in (cond_Zopp s (Zpos m) * 2 ^ Z.max 0 e) in
                 let den := eval vm_compute in (2 ^ Z.max 0 (- e)) in
                 replace (SF2R x) with (IZR num / IZR den)%R
                   by (replace x with v by (vm_compute; reflexivity); reflexivity)
             | _ =>
                 replace (SF2R x) with 0%R
                   by (replace x with v by (vm_compute; reflexivity); reflexivity)
             end
         end.

Section RealValues.

Local Open Scope R_scope.

Lemma sqrt5_sqr : sqrt 5 * sqrt 5 = 5.
Proof. apply sqrt_sqrt. lra. Qed.

Lemma sqrt5_pos : 0 < sqrt 5.
Proof. apply sqrt_lt_R0. lra. Qed.

(** A number whose square, times 5, is not k² is not k/sqrt(5). *)
Lemma not_div_sqrt5 (k y : R) : 5 * (y * y) <> k * k -> y <> k / sqrt 5.
Proof.
  intros Hne E. apply Hne. pose proof sqrt5_sqr as Hs. pose proof sqrt5_pos as Hp.
  assert (E2 : y * sqrt 5 = k) by (rewrite E; field; lra).
  replace (5 * (y * y)) with ((y * sqrt 5) * (y * sqrt 5)) by (rewrite <- Hs at 3; ring).
  now rewrite E2.
Qed.

(** A positive number y with 5(y-d)² < k² < 5(y+d)² is within d of k/sqrt(5). *)
Lemma near_div_sqrt5 (k y d : R) :
  0 < k -> 0 < d -> 0 <= y - d ->
  5 * ((y - d) * (y - d)) < k * k -> k * k < 5 * ((y + d) * (y + d)) ->
  Rabs (y - k / sqrt 5) < d.
Proof.
  intros Hk Hd Hyd Hlo Hhi.
  pose proof sqrt5_sqr as Hs. pose proof sqrt5_pos as Hp.
  set (t := k / sqrt 5).
  assert (Ht : 0 < t) by (apply Rdiv_lt_0_compat; assumption).
  assert (Htt : 5 * (t * t) = k * k).
  { unfold t. replace (5 * (k / sqrt 5 * (k / sqrt 5)))
      with (5 * (k * k) / (sqrt 5 * sqrt 5)) by (field; lra).
    rewrite Hs. field. }
  assert (H1 : y - d < t).
  { apply Rnot_le_lt. intros Hle.
    assert ((y - d) * (y - d) >= t * t) by nra. lra. }
  assert (H2 : t < y + d).
  { apply Rnot_le_lt. intros Hle.
    assert ((y + d) * (y + d) <= t * t) by nra. lra. }
  apply Rabs_def1; lra.
Qed.

(** Over the reals, the mean of ten equal elements is that element. *)
Lemma ten_mean_const (k : R) :
  Spec.mean (@ten_element_cfg F32.arith) (fun _ => k) 0 = k.
Proof.
  unfold Spec.mean, Spec.NHW, Spec.sum_nhw, Spec.Rsum, Spec.elem.
  cbn [MB H W ten_element_cfg].
  change (range 10) with [0; 1; 2; 3; 4; 5; 6; 7; 8; 9]%Z. change (range 1) with [0%Z].
  cbn [Spec.list_sum fold_right]. change (10 * 1 * 1)%Z with 10%Z. lra.
Qed.

(** The sums of the scenario, written out. *)
Lemma ex_sum_nhw (f : Z -> Z -> Z -> R) :
  Spec.sum_nhw 2 1 2 f = f 0%Z 0%Z 0%Z + f 0%Z 0%Z 1%Z + f 1%Z 0%Z 0%Z + f 1%Z 0%Z 1%Z.
Proof.
  unfold Spec.sum_nhw, Spec.Rsum.
  change (range 2) with [0; 1]%Z. change (range 1) with [0]%Z.
  cbn [Spec.list_sum fold_right]. ring.
Qed.

End RealValues.

(** * The forward kernel against its specification *)

(** C1.  Every element of the output is
    dst[n,c,h,w] = ((scale[c] · (src[n,c,h,w] - mean[c])) · invstd[c]) + shift[c]
    with each operation the one of the element type, rounded, mean[c] and
    invstd[c] being the two statistics as the kernel has computed them
    ([fwd_mean], [fwd_invstd]) and scale and shift rows 0 and 1 of scaleshift.
    In the scenario N=2, C=1, H=1, W=2, src=[1,3,5,7], scale=1, shift=0, eps=0
    the binary32 output is -11254498/2^23, -15005998/2^25, 15005998/2^25,
    11254498/2^23: each within 2^-23 of (src-4)/sqrt(5). *)
Theorem execute_forward_normalizes :
  (forall (A : Arith) (cfg : bnorm_conf A) (src scaleshift dst : buffer A)
          (ws : option (buffer A)) (n c h w : Z),
      layout4 (src_pd cfg) (MB cfg) (C cfg) (H cfg) (W cfg) ->
      0 <= n < MB cfg -> 0 <= c < C cfg -> 0 <= h < H cfg -> 0 <= w < W cfg ->
      fst (execute_forward cfg src scaleshift dst ws) (off (src_pd cfg) [n; c; h; w])
      = fadd (fmul (fmul (scaleshift (off (weights_pd cfg) [0; c]))
                         (fsub (src (off (src_pd cfg) [n; c; h; w])) (fwd_mean cfg src c)))
                   (fwd_invstd cfg src c))
             (scaleshift (off (weights_pd cfg) [1; c])))
  /\ (forall (dst : buffer F32.arith) (ws : option (buffer F32.arith)),
         map (fst (execute_forward ex_cfg ex_src ex_scaleshift dst ws)) [0; 1; 2; 3]
         = [S754_finite true 11254498 (-23); S754_finite true 15005998 (-25);
            S754_finite false 15005998 (-25); S754_finite false 11254498 (-23)])
  /\ (forall (dst : buffer F32.arith) (ws : option (buffer F32.arith)) (p : Z),
         In p [0; 1; 2; 3] ->
         (Rabs (SF2R (fst (execute_forward ex_cfg ex_src ex_scaleshift dst ws) p)
                - (SF2R (@ex_src F32.arith p) - 4) / sqrt 5) < / 2 ^ 23)%R).
Proof.
  assert (Hval : forall (dst : buffer F32.arith) (ws : option (buffer F32.arith)),
             fst (execute_forward ex_cfg ex_src ex_scaleshift dst ws) 0
             = S754_finite true 11254498 (-23)
             /\ fst (execute_forward ex_cfg ex_src ex_scaleshift dst ws) 1
                = S754_finite true 15005998 (-25)
             /\ fst (execute_forward ex_cfg ex_src ex_scaleshift dst ws) 2
                = S754_finite false 15005998 (-25)
             /\ fst (execute_forward ex_cfg ex_src ex_scaleshift dst ws) 3
                = S754_finite false 11254498 (-23)).
  { intros dst ws.
    pose proof (ex_forward_at dst ws 0 0 ltac:(lia) ltac:(lia)) as E0.
    pose proof (ex_forward_at dst ws 0 1 ltac:(lia) ltac:(lia)) as E1.
    pose proof (ex_forward_at dst ws 1 0 ltac:(lia) ltac:(lia)) as E2.
    pose proof (ex_forward_at dst ws 1 1 ltac:(lia) ltac:(lia)) as E3.
    repeat split;
      [ etransitivity; [exact E0|] | etransitivity; [exact E1|]
      | etransitivity; [exact E2|] | etransitivity; [exact E3|] ];
      vm_compute; reflexivity. }
  split; [|split].
  - intros A cfg src scaleshift dst ws n c h w Hlay Hn Hc Hh Hw.
    now rewrite execute_forward_dst_at.
  - intros dst ws. destruct (Hval dst ws) as [E0 [E1 [E2 E3]]].
    cbn [map]. now rewrite E0, E1, E2, E3.
  - intros dst ws p Hp. destruct (Hval dst ws) as [E0 [E1 [E2 E3]]].
    pose proof sqrt5_pos as Hs.
    destruct Hp as [<- | [<- | [<- | [<- | []]]]].
    + rewrite E0. SF2R_eval.
      replace (-11254498 / 8388608 - (8388608 / 8388608 - 4) / sqrt 5)%R
        with (- (11254498 / 8388608 - 3 / sqrt 5))%R by (field; lra).
      rewrite Rabs_Ropp. apply near_div_sqrt5; lra.
    + rewrite E1. SF2R_eval.
      replace (-15005998 / 33554432 - (12582912 / 4194304 - 4) / sqrt 5)%R
        with (- (15005998 / 33554432 - 1 / sqrt 5))%R by (field; lra).
      rewrite Rabs_Ropp. apply near_div_sqrt5; lra.
    + rewrite E2. SF2R_eval.
      replace (15005998 / 33554432 - (10485760 / 2097152 - 4) / sqrt 5)%R
        with (15005998 / 33554432 - 1 / sqrt 5)%R by (field; lra).
      apply near_div_sqrt5; lra.
    + rewrite E3. SF2R_eval.
      replace (11254498 / 8388608 - (14680064 / 2097152 - 4) / sqrt 5)%R
        with (11254498 / 8388608 - 3 / sqrt 5)%R by (field; lra).
      apply near_div_sqrt5; lra.
Qed.

(** The last element of the scenario, in binary32. *)
Lemma execute_forward_normalizes_witness :
  fst (execute_forward (@ex_cfg F32.arith) ex_src ex_scaleshift zeros None)
      (off (src_pd (@ex_cfg F32.arith)) [1; 0; 0; 1])
  = fadd (fmul (fmul (ex_scaleshift (off (weights_pd (@ex_cfg F32.arith)) [0; 0]))
                     (fsub (ex_src (off (src_pd (@ex_cfg F32.arith)) [1; 0; 0; 1]))
                           (fwd_mean ex_cfg ex_src 0)))
               (fwd_invstd ex_cfg ex_src 0))
         (ex_scaleshift (off (weights_pd (@ex_cfg F32.arith)) [1; 0])).
Proof.
  apply (proj1 execute_forward_normalizes F32.arith ex_cfg ex_src ex_scaleshift zeros None
           1 0 0 1).
  - intros n c h w n' c' h' w'. cbn. lia.
  - cbn. lia.
  - cbn. lia.
  - cbn. lia.
  - cbn. lia.
Defined.

(** C1 as stated, with exact sums, quotients and square root, does not hold
    of the binary32 kernel.  In the scenario the last element of the output
    is 11254498/2^23, which is not (7 - 4)/sqrt(5); and on a channel of ten
    elements equal to the binary32 number next to 1/10, with scale 1, shift 0
    and eps 1, element 0 of the output is -2^-27, where the formula over the
    reals gives shift = 0. *)
Lemma execute_forward_not_exact :
  (SF2R (fst (execute_forward (@ex_cfg F32.arith) ex_src ex_scaleshift zeros None) 3%Z)
   <> (SF2R (@ex_src F32.arith 3%Z) - 4) / sqrt 5)%R
  /\ (SF2R (fst (execute_forward (@ten_element_cfg F32.arith) (fun _ => tenth)
                   ex_scaleshift zeros None) 0%Z)
      <> Spec.dst (@ten_element_cfg F32.arith)
           (SF2R (batch_norm_epsilon (@ten_element_cfg F32.arith)))
           (fun _ => SF2R tenth) (fun p => SF2R (@ex_scaleshift F32.arith p)) 0%Z 0%Z 0%Z 0%Z)%R.
Proof.
  split.
  - SF2R_eval.
    replace ((14680064 / 2097152 - 4) / sqrt 5)%R with (3 / sqrt 5)%R
      by (pose proof sqrt5_pos; field; lra).
    apply not_div_sqrt5. lra.
  - unfold Spec.dst. rewrite ten_mean_const. unfold Spec.elem.
    SF2R_eval. lra.
Qed.

(** C2.  The first statistic of channel c is the running sum of the elements
    of the channel, taken from 0 in the order of the loops, divided by the
    [int] product [W * N * H]; the second one, which training mode stores, is
    1/sqrt(variance + eps), computed in [double] and converted back, where
    variance is the running sum of the squared deviations from that mean
    divided by [W * H * N]: not the variance.  Every operation is the rounded
    one of the element type.  The statistics are the final values of [mean]
    and [variance]: the locals in inference mode, the workspace elements c and
    C + c in training mode.  In the scenario of C1, in binary32, the stored
    mean is 4, the variance is 5 and the stored second statistic is
    15005998/2^25, within 2^-25 of 1/sqrt(5). *)
Theorem execute_forward_statistics :
  (forall (A : Arith) (cfg : bnorm_conf A) (src scaleshift dst : buffer A) (c : Z),
      0 <= c < C cfg ->
      let sum := fold_left (fun a t => fadd a (src_at cfg src c t))
                           (nhw_order (MB cfg) (H cfg) (W cfg)) (of_int 0) in
      let mean := fdiv sum (of_int (int_mul (int_mul (W cfg) (MB cfg)) (H cfg))) in
      let sqsum := fold_left (fun a t => fadd a (fmul (fsub (src_at cfg src c t) mean)
                                                      (fsub (src_at cfg src c t) mean)))
                             (nhw_order (MB cfg) (H cfg) (W cfg)) (of_int 0) in
      let variance := fdiv sqsum (of_int (int_mul (int_mul (W cfg) (H cfg)) (MB cfg))) in
      let invstd := of_double (ddiv (dlit 1)
                                 (dsqrt (dadd (to_double variance) (batch_norm_epsilon cfg)))) in
      (forall vm vv,
          let s := fwd_channel cfg src scaleshift c (mk_fwd dst None vm vv) in
          v_mean s = mean /\ v_variance s = invstd)
      /\ (forall ws, exists ws',
             snd (execute_forward cfg src scaleshift dst (Some ws)) = Some ws'
             /\ ws' c = mean
             /\ ws' (C cfg + c) = invstd))
  /\ (forall (dst ws : buffer F32.arith), exists ws',
         snd (execute_forward ex_cfg ex_src ex_scaleshift dst (Some ws)) = Some ws'
         /\ ws' 0 = @of_int F32.arith 4
         /\ fwd_variance ex_cfg ex_src 0 = @of_int F32.arith 5
         /\ ws' 1 = S754_finite false 15005998 (-25)
         /\ ws' 1 <> fwd_variance ex_cfg ex_src 0
         /\ (Rabs (SF2R (ws' 1%Z) - 1 / sqrt 5) < / 2 ^ 25)%R).
Proof.
  split.
  - intros A cfg src scaleshift dst c Hc sum mean sqsum variance invstd. split.
    + intros vm vv. rewrite fwd_channel_inference. cbn [v_mean v_variance].
      split; reflexivity.
    + intros ws.
      destruct (execute_forward_ws_at cfg src scaleshift dst ws) as [ws' [Hsome [Hcells _]]].
      exists ws'. split; [exact Hsome|]. exact (Hcells c Hc).
  - intros dst ws.
    destruct (execute_forward_ws_at ex_cfg ex_src ex_scaleshift dst ws)
      as [ws' [Hsome [Hcells _]]].
    destruct (Hcells 0) as [Hm Hv]; [cbn; lia|].
    change (ws' 0 = fwd_mean (@ex_cfg F32.arith) ex_src 0) in Hm.
    change (ws' 1 = fwd_invstd (@ex_cfg F32.arith) ex_src 0) in Hv.
    assert (Em : fwd_mean (@ex_cfg F32.arith) ex_src 0 = @of_int F32.arith 4)
      by (vm_compute; reflexivity).
    assert (Ev : fwd_variance (@ex_cfg F32.arith) ex_src 0 = @of_int F32.arith 5)
      by (vm_compute; reflexivity).
    assert (Ei : fwd_invstd (@ex_cfg F32.arith) ex_src 0 = S754_finite false 15005998 (-25))
      by (vm_compute; reflexivity).
    exists ws'. split; [exact Hsome|]. rewrite Hm, Hv, Ev, Ei.
    split; [exact Em|]. split; [reflexivity|]. split; [reflexivity|]. split.
    + vm_compute. discriminate.
    + SF2R_eval. apply near_div_sqrt5; lra.
Qed.

(** The statistics of the scenario as a training-mode call stores them, in
    binary32. *)
Lemma execute_forward_statistics_witness :
  exists ws',
    snd (execute_forward (@ex_cfg F32.arith) ex_src ex_scaleshift zeros (Some zeros)) = Some ws'
    /\ ws' 0 = fwd_mean ex_cfg ex_src 0
    /\ ws' (C (@ex_cfg F32.arith) + 0) = fwd_invstd ex_cfg ex_src 0.
Proof.
  apply (proj1 execute_forward_statistics F32.arith ex_cfg ex_src ex_scaleshift zeros 0).
  cbn. lia.
Defined.

(** C2 as stated, with an exact sum and quotient, does not hold of the
    binary32 kernel: on a channel of ten elements equal to the binary32
    number next to 1/10, whose mean over the reals is that number, the stored
    mean is one unit in the last place above it. *)
Lemma stored_mean_not_exact :
  exists ws',
    snd (execute_forward (@ten_element_cfg F32.arith) (fun _ => tenth) ex_scaleshift zeros
           (Some zeros)) = Some ws'
    /\ ws' 0 = S754_finite false 13421774 (-27)
    /\ (SF2R (ws' 0%Z) <> Spec.mean (@ten_element_cfg F32.arith) (fun _ => SF2R tenth) 0%Z)%R.
Proof.
  destruct (execute_forward_ws_at (@ten_element_cfg F32.arith) (fun _ => tenth) ex_scaleshift
              zeros zeros) as [ws' [Hsome [Hcells _]]].
  destruct (Hcells 0) as [Hm _]; [cbn; lia|].
  change (ws' 0 = fwd_mean (@ten_element_cfg F32.arith) (fun _ => tenth) 0) in Hm.
  assert (Em : fwd_mean (@ten_element_cfg F32.arith) (fun _ => tenth) 0
               = S754_finite false 13421774 (-27)) by (vm_compute; reflexivity).
  exists ws'. split; [exact Hsome|]. rewrite Hm, Em. split; [reflexivity|].
  rewrite ten_mean_const. SF2R_eval. lra.
Qed.

(** * A constant channel *)

Lemma SFsub_diag (prec emax : Z) (s : bool) (m : positive) (e : Z) :
  SFsub prec emax (S754_finite s m e) (S754_finite s m e) = S754_zero false.
Proof. unfold SFsub. now rewrite Z.sub_diag. Qed.

Lemma fsub_self (k : spec_float) :
  finite_or_zero k = true -> @fsub F32.arith k k = S754_zero false.
Proof.
  intros Hk. destruct k as [[|] | | | s m e]; try discriminate Hk; try reflexivity.
  apply SFsub_diag.
Qed.

Section ConstantChannel.

Variable cfg : bnorm_conf F32.arith.
Variables src scaleshift : buffer F32.arith.
Variable c : Z.
Variable k : spec_float.

Hypothesis Hk : finite_or_zero k = true.
Hypothesis Hsrc : forall n h w, 0 <= n < MB cfg -> 0 <= h < H cfg -> 0 <= w < W cfg ->
                    src (off (src_pd cfg) [n; c; h; w]) = k.
Hypothesis Hmean : fwd_mean cfg src c = k.

Lemma src_at_const t :
  In t (nhw_order (MB cfg) (H cfg) (W cfg)) -> src_at cfg src c t = k.
Proof.
  destruct t as [[n h] w]. intros Hin. apply nhw_order_In in Hin.
  unfold src_at. apply Hsrc; tauto.
Qed.

(** The squared deviations add up to +0. *)
Lemma fwd_sqsum_const : fwd_sqsum cfg src c = S754_zero false.
Proof.
  unfold fwd_sqsum. rewrite Hmean.
  assert (Hl : forall l, (forall t, In t l -> src_at cfg src c t = k) ->
                 fold_left (fun a t => @fadd F32.arith a
                                         (fmul (fsub (src_at cfg src c t) k)
                                               (fsub (src_at cfg src c t) k)))
                           l (S754_zero false) = S754_zero false).
  { induction l as [|t l IH]; intros Hl; [reflexivity|]. cbn [fold_left].
    rewrite (Hl t) by (now left). rewrite (fsub_self k Hk).
    change (@fadd F32.arith (S754_zero false)
              (@fmul F32.arith (S754_zero false) (S754_zero false)))
      with (S754_zero false).
    apply IH. intros u Hu. apply Hl. now right. }
  apply Hl. exact src_at_const.
Qed.

End ConstantChannel.

(** C7.  On a channel whose elements all equal a finite k, with eps > 0 and a
    positive divisor W·H·N: when the mean comes out as k (the sum and its
    quotient are exact for these values), the variance is +0, the second
    statistic is 1/sqrt(eps) as computed in [double] and converted to
    binary32, training mode stores k and that value, and, for a finite scale
    and a finite second statistic, every element of the channel of dst is the
    shift, up to the sign of a zero. *)
Theorem forward_constant_channel (cfg : bnorm_conf F32.arith)
    (src scaleshift dst : buffer F32.arith) (c : Z) (k : spec_float)
    (me mM : positive) (ee eM : Z) :
  layout4 (src_pd cfg) (MB cfg) (C cfg) (H cfg) (W cfg) ->
  0 <= c < C cfg ->
  finite_or_zero k = true ->
  (forall n h w, 0 <= n < MB cfg -> 0 <= h < H cfg -> 0 <= w < W cfg ->
     src (off (src_pd cfg) [n; c; h; w]) = k) ->
  batch_norm_epsilon cfg = S754_finite false me ee ->
  @of_int F32.arith (int_mul (int_mul (W cfg) (H cfg)) (MB cfg)) = S754_finite false mM eM ->
  fwd_mean cfg src c = k ->
  let invstd := @of_double F32.arith (ddiv (dlit 1) (dsqrt (batch_norm_epsilon cfg))) in
  fwd_variance cfg src c = S754_zero false
  /\ fwd_invstd cfg src c = invstd
  /\ (forall ws, exists ws',
         snd (execute_forward cfg src scaleshift dst (Some ws)) = Some ws'
         /\ ws' c = k /\ ws' (C cfg + c) = invstd)
  /\ (forall wso n h w,
         0 <= n < MB cfg -> 0 <= h < H cfg -> 0 <= w < W cfg ->
         finite_or_zero (scaleshift (off (weights_pd cfg) [0; c])) = true ->
         finite_or_zero invstd = true ->
         let d := fst (execute_forward cfg src scaleshift dst wso)
                      (off (src_pd cfg) [n; c; h; w]) in
         let shift := scaleshift (off (weights_pd cfg) [1; c]) in
         d = shift \/ (is_zero d = true /\ is_zero shift = true)).
Proof.
  intros Hlay Hc Hk Hsrc Heps HM Hmean invstd.
  assert (Hvar : fwd_variance cfg src c = S754_zero false).
  { unfold fwd_variance. rewrite (fwd_sqsum_const cfg src c k Hk Hsrc Hmean), HM.
    reflexivity. }
  assert (Hinv : fwd_invstd cfg src c = invstd).
  { unfold fwd_invstd, invstd. rewrite Hvar, Heps. reflexivity. }
  split; [exact Hvar|]. split; [exact Hinv|]. split.
  - intros ws.
    destruct (execute_forward_ws_at cfg src scaleshift dst ws) as [ws' [Hsome [Hcells _]]].
    exists ws'. split; [exact Hsome|].
    destruct (Hcells c Hc) as [Hm Hv]. unfold fwd_ws_mean, fwd_ws_variance in *.
    cbn [Z.add] in Hm. rewrite Hm, Hv, Hmean, Hinv. split; reflexivity.
  - intros wso n h w Hn Hh Hw Hscale Hfin d shift. unfold d.
    rewrite execute_forward_dst_at by assumption.
    unfold fwd_out, src_at. rewrite Hsrc by assumption. rewrite Hmean, Hinv.
    rewrite (fsub_self k Hk). fold shift.
    destruct (scaleshift (off (weights_pd cfg) [0; c])) as [ss | | | ss ms es];
      try discriminate Hscale;
      (destruct invstd as [si | | | si mi ei]; try discriminate Hfin);
      cbn [fmul F32.arith SFmul xorb];
      (destruct shift as [sh | sh | | sh mh eh];
       [ right; split; [|reflexivity] | left | left | left ]);
      try reflexivity;
      destruct ss, si, sh; reflexivity.
Qed.

(** Ten elements equal to 3, eps = 1: the sum 30 and the mean 3 are exact. *)
Lemma forward_constant_channel_witness :
  fwd_variance (@ten_element_cfg F32.arith) (fun _ => of_int 3) 0 = S754_zero false
  /\ fwd_invstd (@ten_element_cfg F32.arith) (fun _ => of_int 3) 0
     = @of_double F32.arith
         (ddiv (dlit 1) (dsqrt (batch_norm_epsilon (@ten_element_cfg F32.arith)))).
Proof.
  destruct (forward_constant_channel (@ten_element_cfg F32.arith) (fun _ => of_int 3)
              ex_scaleshift zeros 0 (@of_int F32.arith 3) 4503599627370496 10485760 (-52) (-20))
    as [Hvar [Hinv _]].
  - intros n c h w n' c' h' w'. cbn. lia.
  - cbn. lia.
  - reflexivity.
  - reflexivity.
  - reflexivity.
  - reflexivity.
  - vm_compute. reflexivity.
  - split; [exact Hvar | exact Hinv].
Defined.

(** C7 as stated does not hold of the binary32 kernel.  On a channel of ten
    elements equal to k, the binary32 number next to 1/10, with N·H·W = 10,
    eps = 1, scale 1 and shift 0, the running sum is rounded: the mean comes
    out one unit in the last place above k, the variance is 2^-54 and not 0,
    and element 0 of dst is -2^-27 and not the shift. *)
Lemma constant_channel_not_exact :
  fwd_mean (@ten_element_cfg F32.arith) (fun _ => tenth) 0 = S754_finite false 13421774 (-27)
  /\ fwd_mean (@ten_element_cfg F32.arith) (fun _ => tenth) 0 <> tenth
  /\ fwd_variance (@ten_element_cfg F32.arith) (fun _ => tenth) 0
     = S754_finite false 8388608 (-77)
  /\ fst (execute_forward (@ten_element_cfg F32.arith) (fun _ => tenth) ex_scaleshift zeros
            None) 0 = S754_finite true 8388608 (-50)
  /\ @ex_scaleshift F32.arith (off (weights_pd (@ten_element_cfg F32.arith)) [1; 0])
     = S754_zero false.
Proof.
  split; [vm_compute; reflexivity|]. split; [vm_compute; discriminate|].
  split; [vm_compute; reflexivity|]. split; vm_compute; reflexivity.
Qed.

(** C6.  In training mode the workspace ends with the mean of channel c at
    index c of row 0 (offset c) and its second statistic at index c of row 1
    (offset C + c), every other location keeps its contents, and dst is the
    one of inference mode; in inference mode there is no workspace and none is
    written.  The statistics are those the loop body computes, whatever the
    arithmetic. *)
Theorem execute_forward_workspace {A : Arith} (cfg : bnorm_conf A)
    (src scaleshift dst : buffer A) :
  (forall ws, exists ws',
      snd (execute_forward cfg src scaleshift dst (Some ws)) = Some ws'
      /\ (forall c, 0 <= c < C cfg ->
            ws' c = fwd_mean cfg src c /\ ws' (C cfg + c) = fwd_invstd cfg src c)
      /\ (forall p, ~ 0 <= p < 2 * C cfg -> ws' p = ws p)
      /\ fst (execute_forward cfg src scaleshift dst (Some ws))
         = fst (execute_forward cfg src scaleshift dst None))
  /\ snd (execute_forward cfg src scaleshift dst None) = None.
Proof.
  split.
  - intros ws.
    destruct (execute_forward_ws_at cfg src scaleshift dst ws) as [ws' [Hsome [Hcells Hframe]]].
    exists ws'. repeat split.
    + exact Hsome.
    + now apply Hcells.
    + now apply Hcells.
    + exact Hframe.
    + now rewrite !execute_forward_dst.
  - pose proof (execute_forward_ws cfg src scaleshift dst None) as Hws.
    cbn [option_map] in Hws.
    now destruct (snd (execute_forward cfg src scaleshift dst None)).
Qed.

(** * The backward kernel against its specification *)

Section BackwardFormulas.

Context {A : Arith}.
Variable cfg : bnorm_conf A.
Variables src diff_dst scaleshift ws : buffer A.

(** The two running sums of the accumulation loop. *)
Lemma bwd_sums_eq c :
  bwd_sums cfg src diff_dst ws c
  = (diff_gamma_sum cfg src diff_dst ws c, diff_beta_sum cfg diff_dst c).
Proof. apply bwd_sums_fold. Qed.

(** What the last loop nest leaves in an element of diff_src. *)
Lemma bwd_out_eq c n h w :
  bwd_out cfg src diff_dst scaleshift ws c (n, h, w)
  = fmul (fsub (fsub (diff_dst (off (diff_src_pd cfg) [n; c; h; w]))
                     (fdiv (diff_beta_sum cfg diff_dst c)
                           (of_int (int_mul (int_mul (W cfg) (H cfg)) (MB cfg)))))
               (fdiv (fmul (fmul (fsub (src (off (src_pd cfg) [n; c; h; w]))
                                       (ws (off (workspace_pd cfg) [0] + c)))
                                 (fmul (diff_gamma_sum cfg src diff_dst ws c)
                                       (ws (off (workspace_pd cfg) [C cfg] + c))))
                           (ws (off (workspace_pd cfg) [C cfg] + c)))
                     (of_int (int_mul (int_mul (W cfg) (H cfg)) (MB cfg)))))
         (fmul (scaleshift (off (weights_pd cfg) [0; c]))
               (ws (off (workspace_pd cfg) [C cfg] + c))).
Proof.
  unfold bwd_out, bwd_diff_gamma, bwd_diff_beta. rewrite bwd_sums_eq. reflexivity.
Qed.

End BackwardFormulas.

(** C3.  With a non-null diff_scaleshift, row 0 of diff_scaleshift receives
    diff_gamma[c] = (Σ (src[n,c,h,w] - mean[c]) · diff_dst[n,c,h,w]) · invstd[c]
    and row 1 receives diff_beta[c] = Σ diff_dst[n,c,h,w], the sums being
    running sums from 0.0 in the order of the loops with every operation
    rounded ([diff_gamma_sum], [diff_beta_sum]), and mean[c] and invstd[c]
    being element c of the two rows of the workspace, which start at
    [workspace_d.off(0)] and [workspace_d.off(C)]. *)
Theorem execute_backward_diff_scaleshift_formula {A : Arith} (cfg : bnorm_conf A)
    (src diff_dst scaleshift ws diff_src dss : buffer A) (c : Z) :
  layout2 (diff_weights_pd cfg) (C cfg) ->
  0 <= c < C cfg ->
  exists dss',
    snd (execute_backward cfg src diff_dst scaleshift ws diff_src (Some dss)) = Some dss'
    /\ dss' (off (diff_weights_pd cfg) [0; c])
       = fmul (fold_left
                 (fun a t =>
                    let '(n, h, w) := t in
                    fadd a (fmul (fsub (src (off (src_pd cfg) [n; c; h; w]))
                                       (ws (off (workspace_pd cfg) [0] + c)))
                                 (diff_dst (off (diff_src_pd cfg) [n; c; h; w]))))
                 (nhw_order (MB cfg) (H cfg) (W cfg)) (of_double (dlit 0)))
              (ws (off (workspace_pd cfg) [C cfg] + c))
    /\ dss' (off (diff_weights_pd cfg) [1; c])
       = fold_left
           (fun a t =>
              let '(n, h, w) := t in fadd a (diff_dst (off (diff_src_pd cfg) [n; c; h; w])))
           (nhw_order (MB cfg) (H cfg) (W cfg)) (of_double (dlit 0)).
Proof.
  intros Hlay Hc.
  destruct (execute_backward_diff_scaleshift_at cfg src diff_dst scaleshift ws diff_src dss c
              Hlay Hc) as [dss' [Hsome [Hg Hb]]].
  exists dss'. split; [exact Hsome|]. split.
  - rewrite Hg. unfold bwd_diff_gamma. rewrite bwd_sums_eq. cbn [fst].
    unfold diff_gamma_sum, bwd_invstd, bwd_ws_variance. f_equal.
    apply fold_left_ext_in. intros a [[n h] w] _. reflexivity.
  - rewrite Hb. unfold bwd_diff_beta. rewrite bwd_sums_eq. cbn [snd].
    unfold diff_beta_sum. apply fold_left_ext_in. intros a [[n h] w] _. reflexivity.
Qed.

(** The sums of the scenario in binary32: src = 0, diff_dst = [2^24, 1, 1, 1],
    workspace mean 0 and second statistic 1. *)
Lemma execute_backward_diff_scaleshift_formula_witness :
  exists dss',
    snd (execute_backward (@ex_cfg F32.arith) zeros big_then_ones ex_scaleshift unit_ws zeros
           (Some zeros)) = Some dss'
    /\ dss' (off (diff_weights_pd (@ex_cfg F32.arith)) [0; 0])
       = fmul (fold_left
                 (fun a t =>
                    let '(n, h, w) := t in
                    fadd a (fmul (fsub (zeros (off (src_pd (@ex_cfg F32.arith)) [n; 0; h; w]))
                                       (unit_ws (off (workspace_pd (@ex_cfg F32.arith)) [0] + 0)))
                                 (big_then_ones
                                    (off (diff_src_pd (@ex_cfg F32.arith)) [n; 0; h; w]))))
                 (nhw_order (MB (@ex_cfg F32.arith)) (H (@ex_cfg F32.arith))
                            (W (@ex_cfg F32.arith)))
                 (of_double (dlit 0)))
              (unit_ws (off (workspace_pd (@ex_cfg F32.arith)) [C (@ex_cfg F32.arith)] + 0))
    /\ dss' (off (diff_weights_pd (@ex_cfg F32.arith)) [1; 0])
       = fold_left
           (fun a t =>
              let '(n, h, w) := t in
              fadd a (big_then_ones (off (diff_src_pd (@ex_cfg F32.arith)) [n; 0; h; w])))
           (nhw_order (MB (@ex_cfg F32.arith)) (H (@ex_cfg F32.arith)) (W (@ex_cfg F32.arith)))
           (of_double (dlit 0)).
Proof.
  apply (execute_backward_diff_scaleshift_formula (@ex_cfg F32.arith) zeros big_then_ones
           ex_scaleshift unit_ws zeros zeros 0).
  - intros r c r' c'. cbn. lia.
  - cbn. lia.
Defined.

(** C3 as stated, with exact sums, does not hold of the binary32 kernel: for
    diff_dst = [2^24, 1, 1, 1] the running sum stays at 2^24, and row 1 of
    diff_scaleshift receives 16777216 where the sum over the reals is
    16777219. *)
Lemma diff_beta_not_exact :
  exists dss',
    snd (execute_backward (@ex_cfg F32.arith) zeros big_then_ones ex_scaleshift unit_ws zeros
           (Some zeros)) = Some dss'
    /\ dss' (off (diff_weights_pd (@ex_cfg F32.arith)) [1; 0]) = @of_int F32.arith 16777216
    /\ (SF2R (dss' (off (diff_weights_pd (@ex_cfg F32.arith)) [1; 0]%Z))
        <> Spec.diff_beta (@ex_cfg F32.arith) (fun p => SF2R (@big_then_ones F32.arith p)) 0%Z)%R.
Proof.
  destruct (execute_backward_diff_scaleshift_at (@ex_cfg F32.arith) zeros big_then_ones
              ex_scaleshift unit_ws zeros zeros 0) as [dss' [Hsome [_ Hb]]].
  - intros r c r' c'. cbn. lia.
  - cbn. lia.
  - assert (Eb : bwd_diff_beta (@ex_cfg F32.arith) zeros big_then_ones unit_ws 0
                 = @of_int F32.arith 16777216) by (vm_compute; reflexivity).
    exists dss'. split; [exact Hsome|]. rewrite Hb, Eb. split; [reflexivity|].
    unfold Spec.diff_beta, Spec.elem. cbn [MB H W ex_cfg]. rewrite ex_sum_nhw.
    SF2R_eval. lra.
Qed.

(** C4.  Every element of the input gradient is
    diff_src[n,c,h,w] = ( diff_dst[n,c,h,w] - diff_beta[c]/(W·H·N)
      - (src[n,c,h,w] - mean[c]) · diff_gamma[c] · invstd[c] / (W·H·N) )
      · (gamma[c] · invstd[c]),
    with every operation rounded and associated as written in the source,
    W·H·N the [int] product, gamma row 0 of scaleshift, mean and invstd read
    from the workspace, and diff_gamma = [diff_gamma_sum] · invstd and
    diff_beta = [diff_beta_sum] the rounded running sums of C3. *)
Theorem execute_backward_diff_src_formula {A : Arith} (cfg : bnorm_conf A)
    (src diff_dst scaleshift ws diff_src : buffer A) (dss : option (buffer A))
    (n c h w : Z) :
  layout4 (diff_src_pd cfg) (MB cfg) (C cfg) (H cfg) (W cfg) ->
  0 <= n < MB cfg -> 0 <= c < C cfg -> 0 <= h < H cfg -> 0 <= w < W cfg ->
  let gamma := scaleshift (off (weights_pd cfg) [0; c]) in
  let mean := ws (off (workspace_pd cfg) [0] + c) in
  let invstd := ws (off (workspace_pd cfg) [C cfg] + c) in
  let WHN := of_int (int_mul (int_mul (W cfg) (H cfg)) (MB cfg)) in
  let diff_gamma := fmul (diff_gamma_sum cfg src diff_dst ws c) invstd in
  let diff_beta := diff_beta_sum cfg diff_dst c in
  fst (execute_backward cfg src diff_dst scaleshift ws diff_src dss)
      (off (diff_src_pd cfg) [n; c; h; w])
  = fmul (fsub (fsub (diff_dst (off (diff_src_pd cfg) [n; c; h; w])) (fdiv diff_beta WHN))
               (fdiv (fmul (fmul (fsub (src (off (src_pd cfg) [n; c; h; w])) mean) diff_gamma)
                           invstd)
                     WHN))
         (fmul gamma invstd).
Proof.
  intros Hlay Hn Hc Hh Hw gamma mean invstd WHN diff_gamma diff_beta.
  rewrite execute_backward_diff_src_at by assumption. apply bwd_out_eq.
Qed.

(** Element 0 of diff_src for src = 0 and diff_dst = [2^24, 1, 1, 1], in
    binary32. *)
Lemma execute_backward_diff_src_formula_witness :
  fst (execute_backward (@ex_cfg F32.arith) zeros big_then_ones ex_scaleshift unit_ws zeros None)
      (off (diff_src_pd (@ex_cfg F32.arith)) [0; 0; 0; 0])
  = @of_int F32.arith 12582912.
Proof.
  rewrite (execute_backward_diff_src_formula (@ex_cfg F32.arith) zeros big_then_ones
             ex_scaleshift unit_ws zeros None 0 0 0 0).
  - vm_compute. reflexivity.
  - intros n c h w n' c' h' w'. cbn. lia.
  - cbn. lia.
  - cbn. lia.
  - cbn. lia.
  - cbn. lia.
Defined.

(** C4 as stated, with exact sums and quotients, does not hold of the
    binary32 kernel: for src = 0, diff_dst = [2^24, 1, 1, 1], gamma = 1,
    mean = 0 and invstd = 1, element 0 of diff_src is 12582912, where the
    formula over the reals gives 2^24 - 16777219/4 = 12582911.25. *)
Lemma diff_src_not_exact :
  fst (execute_backward (@ex_cfg F32.arith) zeros big_then_ones ex_scaleshift unit_ws zeros
         None) 0 = @of_int F32.arith 12582912
  /\
  (SF2R (fst (execute_backward (@ex_cfg F32.arith) zeros big_then_ones ex_scaleshift unit_ws
                zeros None) 0%Z)
   <> Spec.diff_src (@ex_cfg F32.arith)
        (fun p => SF2R (@zeros F32.arith p)) (fun p => SF2R (@big_then_ones F32.arith p))
        (SF2R (@ex_scaleshift F32.arith (off (weights_pd (@ex_cfg F32.arith)) [0; 0]%Z)))
        (SF2R (@unit_ws F32.arith (off (workspace_pd (@ex_cfg F32.arith)) [0%Z] + 0)%Z))
        (SF2R (@unit_ws F32.arith
                 (off (workspace_pd (@ex_cfg F32.arith)) [C (@ex_cfg F32.arith)] + 0)%Z))
        0%Z 0%Z 0%Z 0%Z)%R.
Proof.
  split; [vm_compute; reflexivity|].
  unfold Spec.diff_src, Spec.diff_beta, Spec.diff_gamma, Spec.NHW, Spec.elem.
  cbn [MB H W ex_cfg]. rewrite !ex_sum_nhw. change (2 * 1 * 2)%Z with 4%Z.
  SF2R_eval. lra.
Qed.

(** C5.  With a null diff_scaleshift the backward kernel leaves the same
    diff_src as with diff_scaleshift supplied and writes no diff_scaleshift;
    the writes to diff_scaleshift are the only difference.  diff_gamma and
    diff_beta are computed all the same: with the null pointer every element
    of diff_src holds the value built from the two full running sums
    ([diff_gamma_sum], [diff_beta_sum]), the ones a non-null diff_scaleshift
    receives. *)
Theorem execute_backward_null_diff_scaleshift {A : Arith} (cfg : bnorm_conf A)
    (src diff_dst scaleshift ws diff_src dss : buffer A) :
  buf_eq (fst (execute_backward cfg src diff_dst scaleshift ws diff_src None))
         (fst (execute_backward cfg src diff_dst scaleshift ws diff_src (Some dss)))
  /\ snd (execute_backward cfg src diff_dst scaleshift ws diff_src None) = None
  /\ snd (execute_backward cfg src diff_dst scaleshift ws diff_src (Some dss))
     = Some (write_all (flat_map (bwd_ss_writes cfg src diff_dst ws) (range (C cfg))) dss)
  /\ (layout4 (diff_src_pd cfg) (MB cfg) (C cfg) (H cfg) (W cfg) ->
      forall n c h w,
        0 <= n < MB cfg -> 0 <= c < C cfg -> 0 <= h < H cfg -> 0 <= w < W cfg ->
        let gamma := scaleshift (off (weights_pd cfg) [0; c]) in
        let mean := ws (off (workspace_pd cfg) [0] + c) in
        let invstd := ws (off (workspace_pd cfg) [C cfg] + c) in
        let WHN := of_int (int_mul (int_mul (W cfg) (H cfg)) (MB cfg)) in
        let diff_gamma := fmul (diff_gamma_sum cfg src diff_dst ws c) invstd in
        let diff_beta := diff_beta_sum cfg diff_dst c in
        fst (execute_backward cfg src diff_dst scaleshift ws diff_src None)
            (off (diff_src_pd cfg) [n; c; h; w])
        = fmul (fsub (fsub (diff_dst (off (diff_src_pd cfg) [n; c; h; w]))
                           (fdiv diff_beta WHN))
                     (fdiv (fmul (fmul (fsub (src (off (src_pd cfg) [n; c; h; w])) mean)
                                       diff_gamma)
                                 invstd)
                           WHN))
               (fmul gamma invstd))
  /\ (layout2 (diff_weights_pd cfg) (C cfg) ->
      forall c, 0 <= c < C cfg ->
        exists dss',
          snd (execute_backward cfg src diff_dst scaleshift ws diff_src (Some dss)) = Some dss'
          /\ dss' (off (diff_weights_pd cfg) [0; c])
             = fmul (diff_gamma_sum cfg src diff_dst ws c)
                    (ws (off (workspace_pd cfg) [C cfg] + c))
          /\ dss' (off (diff_weights_pd cfg) [1; c]) = diff_beta_sum cfg diff_dst c).
Proof.
  split; [|split; [|split; [|split]]].
  - eapply buf_eq_trans; [apply execute_backward_diff_src|].
    apply buf_eq_sym. apply execute_backward_diff_src.
  - now rewrite execute_backward_diff_scaleshift.
  - now rewrite execute_backward_diff_scaleshift.
  - intros Hlay n c h w Hn Hc Hh Hw gamma mean invstd WHN diff_gamma diff_beta.
    rewrite execute_backward_diff_src_at by assumption. apply bwd_out_eq.
  - intros Hlay c Hc.
    destruct (execute_backward_diff_scaleshift_at cfg src diff_dst scaleshift ws diff_src dss c
                Hlay Hc) as [dss' [Hsome [Hg Hb]]].
    exists dss'. split; [exact Hsome|]. split.
    + rewrite Hg. unfold bwd_diff_gamma. now rewrite bwd_sums_eq.
    + rewrite Hb. unfold bwd_diff_beta. now rewrite bwd_sums_eq.
Qed.

(** With the null pointer, element 0 of diff_src for diff_dst = [2^24, 1, 1, 1]
    carries the running sum of all four elements of diff_dst. *)
Lemma execute_backward_null_diff_scaleshift_witness :
  fst (execute_backward (@ex_cfg F32.arith) zeros big_then_ones ex_scaleshift unit_ws zeros None)
      (off (diff_src_pd (@ex_cfg F32.arith)) [0; 0; 0; 0])
  = fmul (fsub (fsub (big_then_ones (off (diff_src_pd (@ex_cfg F32.arith)) [0; 0; 0; 0]))
                     (fdiv (diff_beta_sum (@ex_cfg F32.arith) big_then_ones 0)
                           (of_int 4)))
               (fdiv (fmul (fmul (fsub (zeros 0) (unit_ws 0))
                                 (fmul (diff_gamma_sum (@ex_cfg F32.arith) zeros big_then_ones
                                          unit_ws 0)
                                       (unit_ws 1)))
                           (unit_ws 1))
                     (of_int 4)))
         (fmul (ex_scaleshift 0) (unit_ws 1)).
Proof.
  destruct (execute_backward_null_diff_scaleshift (@ex_cfg F32.arith) zeros big_then_ones
              ex_scaleshift unit_ws zeros zeros) as [_ [_ [_ [Hsrc _]]]].
  apply (Hsrc (@ex_cfg_layout4 F32.arith) 0 0 0 0); cbn; lia.
Defined.

(** * Two invocations on logically related buffers *)

Section Slices.

Context {A : Arith}.
Variables cfg cfg' : bnorm_conf A.
Hypothesis Hshape : same_shape cfg cfg'.
Variables c c' : Z.

Section Forward.

Variables src src' scaleshift scaleshift' : buffer A.
Hypothesis Hsrc :
  same_slice4 (MB cfg) (H cfg) (W cfg) (src_pd cfg) (src_pd cfg') src src' c c'.

Lemma src_at_slice t :
  In t (nhw_order (MB cfg) (H cfg) (W cfg)) ->
  src_at cfg' src' c' t = src_at cfg src c t.
Proof.
  destruct t as [[n h] w]. intros Hin. apply nhw_order_In in Hin.
  unfold src_at. apply Hsrc; tauto.
Qed.

Lemma fwd_mean_slice : fwd_mean cfg' src' c' = fwd_mean cfg src c.
Proof.
  destruct Hshape as [HN [HC [HH [HW He]]]].
  unfold fwd_mean. rewrite HN, HH, HW. f_equal.
  apply fold_left_ext_in. intros a t Hin. now rewrite src_at_slice.
Qed.

Lemma fwd_invstd_slice : fwd_invstd cfg' src' c' = fwd_invstd cfg src c.
Proof.
  pose proof fwd_mean_slice as Hm.
  destruct Hshape as [HN [HC [HH [HW He]]]].
  unfold fwd_invstd, fwd_variance, fwd_sqsum. rewrite HN, HH, HW, He, Hm.
  do 6 f_equal.
  apply fold_left_ext_in. intros a t Hin. now rewrite src_at_slice.
Qed.

Hypothesis Hss : same_slice2 (weights_pd cfg) (weights_pd cfg') scaleshift scaleshift' c c'.

Lemma fwd_out_slice t :
  In t (nhw_order (MB cfg) (H cfg) (W cfg)) ->
  fwd_out cfg' src' scaleshift' c' t = fwd_out cfg src scaleshift c t.
Proof.
  intros Hin. unfold fwd_out.
  rewrite fwd_mean_slice, fwd_invstd_slice, src_at_slice by assumption.
  rewrite !Hss by lia. reflexivity.
Qed.

End Forward.

Section Backward.

Variables src src' diff_dst diff_dst' scaleshift scaleshift' ws ws' : buffer A.
Hypothesis Hsrc :
  same_slice4 (MB cfg) (H cfg) (W cfg) (src_pd cfg) (src_pd cfg') src src' c c'.
Hypothesis Hdd :
  same_slice4 (MB cfg) (H cfg) (W cfg) (diff_src_pd cfg) (diff_src_pd cfg')
              diff_dst diff_dst' c c'.
Hypothesis Hws : same_slice_ws cfg cfg' ws ws' c c'.

Lemma diff_dst_at_slice t :
  In t (nhw_order (MB cfg) (H cfg) (W cfg)) ->
  diff_dst_at cfg' diff_dst' c' t = diff_dst_at cfg diff_dst c t.
Proof.
  destruct t as [[n h] w]. intros Hin. apply nhw_order_In in Hin.
  unfold diff_dst_at. apply Hdd; tauto.
Qed.

Lemma bwd_diff_gamma_slice :
  bwd_diff_gamma cfg' src' diff_dst' ws' c' = bwd_diff_gamma cfg src diff_dst ws c.
Proof.
  destruct Hshape as [HN [HC [HH [HW He]]]]. destruct Hws as [Hm Hv].
  unfold bwd_diff_gamma. rewrite !bwd_sums_fold. cbn [fst].
  unfold bwd_invstd, bwd_mean. rewrite HN, HH, HW, Hm, Hv. f_equal.
  apply fold_left_ext_in. intros a t Hin.
  rewrite (src_at_slice src src' Hsrc), diff_dst_at_slice by assumption. reflexivity.
Qed.

Lemma bwd_diff_beta_slice :
  bwd_diff_beta cfg' src' diff_dst' ws' c' = bwd_diff_beta cfg src diff_dst ws c.
Proof.
  destruct Hshape as [HN [HC [HH [HW He]]]].
  unfold bwd_diff_beta. rewrite !bwd_sums_fold. cbn [snd]. rewrite HN, HH, HW.
  apply fold_left_ext_in. intros a t Hin. now rewrite diff_dst_at_slice.
Qed.

Hypothesis Hss : same_slice2 (weights_pd cfg) (weights_pd cfg') scaleshift scaleshift' c c'.

Lemma bwd_out_slice t :
  In t (nhw_order (MB cfg) (H cfg) (W cfg)) ->
  bwd_out cfg' src' diff_dst' scaleshift' ws' c' t
  = bwd_out cfg src diff_dst scaleshift ws c t.
Proof.
  intros Hin. pose proof Hshape as [HN [HC [HH [HW He]]]]. destruct Hws as [Hm Hv].
  unfold bwd_out.
  rewrite bwd_diff_gamma_slice, bwd_diff_beta_slice.
  rewrite (src_at_slice src src' Hsrc), diff_dst_at_slice by assumption.
  unfold bwd_gamma, bwd_invstd, bwd_mean. rewrite HN, HH, HW, Hm, Hv.
  rewrite Hss by lia. reflexivity.
Qed.

End Backward.

End Slices.

(** The relations over all the channels give the relations channel by
    channel. *)
Lemma related4_slice {A : Arith} (N C H W : Z) (pi : Z -> Z) (d d' : memory_desc_wrapper)
    (x x' : buffer A) (c : Z) :
  related4 N C H W pi d d' x x' -> 0 <= c < C -> same_slice4 N H W d d' x x' (pi c) c.
Proof. intros Hrel Hc n h w Hn Hh Hw. now apply Hrel. Qed.

Lemma related2_slice {A : Arith} (C : Z) (pi : Z -> Z) (d d' : memory_desc_wrapper)
    (x x' : buffer A) (c : Z) :
  related2 C pi d d' x x' -> 0 <= c < C -> same_slice2 d d' x x' (pi c) c.
Proof. intros Hrel Hc r Hr. now apply Hrel. Qed.

Lemma related_ws_slice {A : Arith} (cfg cfg' : bnorm_conf A) (pi : Z -> Z)
    (ws ws' : buffer A) (c : Z) :
  related_ws cfg cfg' pi ws ws' -> 0 <= c < C cfg -> same_slice_ws cfg cfg' ws ws' (pi c) c.
Proof. intros Hrel Hc. now apply Hrel. Qed.

Section Related.

Context {A : Arith}.
Variables cfg cfg' : bnorm_conf A.
Variable pi : Z -> Z.
Hypothesis Hshape : same_shape cfg cfg'.
Variables src src' diff_dst diff_dst' scaleshift scaleshift' ws ws' : buffer A.
Hypothesis Hsrc :
  related4 (MB cfg) (C cfg) (H cfg) (W cfg) pi (src_pd cfg) (src_pd cfg') src src'.

Lemma fwd_mean_related c :
  0 <= c < C cfg -> fwd_mean cfg' src' c = fwd_mean cfg src (pi c).
Proof.
  intros Hc. apply (fwd_mean_slice cfg cfg' Hshape). now apply related4_slice with (C := C cfg).
Qed.

Lemma fwd_invstd_related c :
  0 <= c < C cfg -> fwd_invstd cfg' src' c = fwd_invstd cfg src (pi c).
Proof.
  intros Hc. apply (fwd_invstd_slice cfg cfg' Hshape).
  now apply related4_slice with (C := C cfg).
Qed.

Hypothesis Hss : related2 (C cfg) pi (weights_pd cfg) (weights_pd cfg') scaleshift scaleshift'.

Lemma fwd_out_related c t :
  0 <= c < C cfg -> In t (nhw_order (MB cfg) (H cfg) (W cfg)) ->
  fwd_out cfg' src' scaleshift' c t = fwd_out cfg src scaleshift (pi c) t.
Proof.
  intros Hc Hin. apply (fwd_out_slice cfg cfg' Hshape); try assumption.
  - now apply related4_slice with (C := C cfg).
  - now apply related2_slice with (C := C cfg).
Qed.

Hypothesis Hdd :
  related4 (MB cfg) (C cfg) (H cfg) (W cfg) pi (diff_src_pd cfg) (diff_src_pd cfg')
           diff_dst diff_dst'.
Hypothesis Hws : related_ws cfg cfg' pi ws ws'.

Lemma bwd_diff_gamma_related c :
  0 <= c < C cfg ->
  bwd_diff_gamma cfg' src' diff_dst' ws' c = bwd_diff_gamma cfg src diff_dst ws (pi c).
Proof.
  intros Hc. apply (bwd_diff_gamma_slice cfg cfg' Hshape).
  - now apply related4_slice with (C := C cfg).
  - now apply related4_slice with (C := C cfg).
  - now apply related_ws_slice.
Qed.

Lemma bwd_diff_beta_related c :
  0 <= c < C cfg ->
  bwd_diff_beta cfg' src' diff_dst' ws' c = bwd_diff_beta cfg src diff_dst ws (pi c).
Proof.
  intros Hc. apply (bwd_diff_beta_slice cfg cfg' Hshape).
  now apply related4_slice with (C := C cfg).
Qed.

Lemma bwd_out_related c t :
  0 <= c < C cfg -> In t (nhw_order (MB cfg) (H cfg) (W cfg)) ->
  bwd_out cfg' src' diff_dst' scaleshift' ws' c t
  = bwd_out cfg src diff_dst scaleshift ws (pi c) t.
Proof.
  intros Hc Hin. apply (bwd_out_slice cfg cfg' Hshape); try assumption.
  - now apply related4_slice with (C := C cfg).
  - now apply related4_slice with (C := C cfg).
  - now apply related_ws_slice.
  - now apply related2_slice with (C := C cfg).
Qed.

End Related.

(** * Channel independence *)

Lemma channel_perm_range (C : Z) (pi : Z -> Z) (c : Z) :
  Permutation (map pi (range C)) (range C) -> 0 <= c < C -> 0 <= pi c < C.
Proof.
  intros Hperm Hc. apply range_In. eapply Permutation_in; [exact Hperm|].
  apply in_map. now apply range_In.
Qed.

Lemma same_shape_refl {A : Arith} (cfg : bnorm_conf A) : same_shape cfg cfg.
Proof. unfold same_shape. tauto. Qed.

(** C8.  For a permutation pi of the channels: when src, scaleshift, the
    workspace and diff_dst are permuted by pi along the channel axis, the
    outputs dst, ws, diff_src and diff_scaleshift of the two kernels are the
    outputs on the original inputs permuted by pi.  The outputs of a channel
    depend only on the slices of the inputs for that channel: other inputs
    with the same slices for channel c give the same outputs for channel c. *)
Theorem channel_permutation_equivariance {A : Arith} (cfg : bnorm_conf A) (pi : Z -> Z)
    (src src' scaleshift scaleshift' diff_dst diff_dst' ws ws' : buffer A)
    (dst dst' diff_src diff_src' : buffer A) :
  Permutation (map pi (range (C cfg))) (range (C cfg)) ->
  layout4 (src_pd cfg) (MB cfg) (C cfg) (H cfg) (W cfg) ->
  layout4 (diff_src_pd cfg) (MB cfg) (C cfg) (H cfg) (W cfg) ->
  layout2 (diff_weights_pd cfg) (C cfg) ->
  related4 (MB cfg) (C cfg) (H cfg) (W cfg) pi (src_pd cfg) (src_pd cfg) src src' ->
  related2 (C cfg) pi (weights_pd cfg) (weights_pd cfg) scaleshift scaleshift' ->
  related4 (MB cfg) (C cfg) (H cfg) (W cfg) pi (diff_src_pd cfg) (diff_src_pd cfg)
           diff_dst diff_dst' ->
  related_ws cfg cfg pi ws ws' ->
  (forall wso wso',
      related4 (MB cfg) (C cfg) (H cfg) (W cfg) pi (src_pd cfg) (src_pd cfg)
        (fst (execute_forward cfg src scaleshift dst wso))
        (fst (execute_forward cfg src' scaleshift' dst' wso')))
  /\ (forall ws0 ws0', exists w w',
         snd (execute_forward cfg src scaleshift dst (Some ws0)) = Some w
         /\ snd (execute_forward cfg src' scaleshift' dst' (Some ws0')) = Some w'
         /\ forall c, 0 <= c < C cfg ->
              w' c = w (pi c) /\ w' (C cfg + c) = w (C cfg + pi c))
  /\ (forall dss dss',
         related4 (MB cfg) (C cfg) (H cfg) (W cfg) pi (diff_src_pd cfg) (diff_src_pd cfg)
           (fst (execute_backward cfg src diff_dst scaleshift ws diff_src dss))
           (fst (execute_backward cfg src' diff_dst' scaleshift' ws' diff_src' dss')))
  /\ (forall dss dss', exists o o',
         snd (execute_backward cfg src diff_dst scaleshift ws diff_src (Some dss)) = Some o
         /\ snd (execute_backward cfg src' diff_dst' scaleshift' ws' diff_src' (Some dss'))
            = Some o'
         /\ related2 (C cfg) pi (diff_weights_pd cfg) (diff_weights_pd cfg) o o')
  /\ (forall (srcB scaleshiftB diff_dstB wsB dstB diff_srcB : buffer A) (c : Z),
        0 <= c < C cfg ->
        same_slice4 (MB cfg) (H cfg) (W cfg) (src_pd cfg) (src_pd cfg) src srcB c c ->
        same_slice2 (weights_pd cfg) (weights_pd cfg) scaleshift scaleshiftB c c ->
        same_slice4 (MB cfg) (H cfg) (W cfg) (diff_src_pd cfg) (diff_src_pd cfg)
                    diff_dst diff_dstB c c ->
        same_slice_ws cfg cfg ws wsB c c ->
        (forall wso wsoB,
            same_slice4 (MB cfg) (H cfg) (W cfg) (src_pd cfg) (src_pd cfg)
              (fst (execute_forward cfg src scaleshift dst wso))
              (fst (execute_forward cfg srcB scaleshiftB dstB wsoB)) c c)
        /\ (forall ws0 ws0B, exists w wB,
               snd (execute_forward cfg src scaleshift dst (Some ws0)) = Some w
               /\ snd (execute_forward cfg srcB scaleshiftB dstB (Some ws0B)) = Some wB
               /\ wB c = w c /\ wB (C cfg + c) = w (C cfg + c))
        /\ (forall dss dssB,
               same_slice4 (MB cfg) (H cfg) (W cfg) (diff_src_pd cfg) (diff_src_pd cfg)
                 (fst (execute_backward cfg src diff_dst scaleshift ws diff_src dss))
                 (fst (execute_backward cfg srcB diff_dstB scaleshiftB wsB diff_srcB dssB))
                 c c)
        /\ (forall dss dssB, exists o oB,
               snd (execute_backward cfg src diff_dst scaleshift ws diff_src (Some dss)) = Some o
               /\ snd (execute_backward cfg srcB diff_dstB scaleshiftB wsB diff_srcB (Some dssB))
                  = Some oB
               /\ same_slice2 (diff_weights_pd cfg) (diff_weights_pd cfg) o oB c c)).
Proof.
  intros Hperm Hlay Hlayd Hlay2 Hsrc Hss Hdd Hws.
  pose proof (same_shape_refl cfg) as Hshape.
  assert (Hpi : forall c, 0 <= c < C cfg -> 0 <= pi c < C cfg).
  { intros c. now apply channel_perm_range. }
  split; [|split; [|split; [|split]]]; cycle 4.
  { intros srcB scaleshiftB diff_dstB wsB dstB diff_srcB c Hc HsrcB HssB HddB HwsB.
    split; [|split; [|split]].
    - intros wso wsoB n h w Hn Hh Hw.
      rewrite !execute_forward_dst_at by auto.
      apply (fwd_out_slice cfg cfg Hshape c c src srcB scaleshift scaleshiftB HsrcB HssB).
      now apply nhw_order_In.
    - intros ws0 ws0B.
      destruct (execute_forward_ws_at cfg src scaleshift dst ws0) as [w [Hw [Hcells _]]].
      destruct (execute_forward_ws_at cfg srcB scaleshiftB dstB ws0B) as [wB [HwB [HcellsB _]]].
      exists w, wB. split; [exact Hw|]. split; [exact HwB|].
      destruct (Hcells c Hc) as [Hm Hv]. destruct (HcellsB c Hc) as [HmB HvB].
      unfold fwd_ws_mean, fwd_ws_variance in *. cbn [Z.add] in Hm, HmB.
      rewrite Hm, HmB, Hv, HvB.
      rewrite (fwd_mean_slice cfg cfg Hshape c c src srcB HsrcB).
      rewrite (fwd_invstd_slice cfg cfg Hshape c c src srcB HsrcB).
      split; reflexivity.
    - intros dss dssB n h w Hn Hh Hw.
      rewrite !execute_backward_diff_src_at by auto.
      apply (bwd_out_slice cfg cfg Hshape c c src srcB diff_dst diff_dstB
               scaleshift scaleshiftB ws wsB HsrcB HddB HwsB HssB).
      now apply nhw_order_In.
    - intros dss dssB.
      destruct (execute_backward_diff_scaleshift_at cfg src diff_dst scaleshift ws diff_src
                  dss c Hlay2 Hc) as [o [Ho [Hg Hb]]].
      destruct (execute_backward_diff_scaleshift_at cfg srcB diff_dstB scaleshiftB wsB diff_srcB
                  dssB c Hlay2 Hc) as [oB [HoB [HgB HbB]]].
      exists o, oB. split; [exact Ho|]. split; [exact HoB|].
      intros r Hr. assert (Hr' : r = 0 \/ r = 1) by lia.
      destruct Hr' as [-> | ->].
      + rewrite Hg, HgB.
        apply (bwd_diff_gamma_slice cfg cfg Hshape c c src srcB diff_dst diff_dstB ws wsB
                 HsrcB HddB HwsB).
      + rewrite Hb, HbB.
        apply (bwd_diff_beta_slice cfg cfg Hshape c c src srcB diff_dst diff_dstB ws wsB HddB). }
  - intros wso wso' n c h w Hn Hc Hh Hw.
    rewrite !execute_forward_dst_at by auto.
    apply (fwd_out_related cfg cfg pi Hshape src src' scaleshift scaleshift' Hsrc Hss);
      [assumption|]. now apply nhw_order_In.
  - intros ws0 ws0'.
    destruct (execute_forward_ws_at cfg src scaleshift dst ws0) as [w [Hw [Hcells _]]].
    destruct (execute_forward_ws_at cfg src' scaleshift' dst' ws0') as [w' [Hw' [Hcells' _]]].
    exists w, w'. split; [exact Hw|]. split; [exact Hw'|].
    intros c Hc. destruct (Hcells' c Hc) as [Hm' Hv'].
    destruct (Hcells (pi c) (Hpi c Hc)) as [Hm Hv].
    unfold fwd_ws_mean, fwd_ws_variance in *. cbn [Z.add] in Hm, Hm'.
    rewrite Hm, Hm', Hv, Hv'.
    rewrite (fwd_mean_related cfg cfg pi Hshape src src' Hsrc c Hc).
    rewrite (fwd_invstd_related cfg cfg pi Hshape src src' Hsrc c Hc).
    split; reflexivity.
  - intros dss dss' n c h w Hn Hc Hh Hw.
    rewrite !execute_backward_diff_src_at by auto.
    apply (bwd_out_related cfg cfg pi Hshape src src' diff_dst diff_dst'
             scaleshift scaleshift' ws ws' Hsrc Hss Hdd Hws); [assumption|].
    now apply nhw_order_In.
  - intros dss dss'.
    assert (Hrow : forall c, 0 <= c < C cfg ->
              bwd_diff_gamma cfg src' diff_dst' ws' c = bwd_diff_gamma cfg src diff_dst ws (pi c)
              /\ bwd_diff_beta cfg src' diff_dst' ws' c
                 = bwd_diff_beta cfg src diff_dst ws (pi c)).
    { intros c Hc. split.
      - now apply (bwd_diff_gamma_related cfg cfg pi Hshape src src' diff_dst diff_dst' ws ws').
      - now apply (bwd_diff_beta_related cfg cfg pi Hshape src src' diff_dst diff_dst' ws ws'). }
    rewrite !execute_backward_diff_scaleshift. cbn [option_map].
    eexists. eexists. split; [reflexivity|]. split; [reflexivity|].
    assert (Hnd : forall s d t,
               NoDup (map fst (flat_map (bwd_ss_writes cfg s d t) (range (C cfg))))).
    { intros s d t. apply bwd_ss_writes_NoDup; [assumption | apply range_NoDup |].
      intros c. apply range_In. }
    intros r c Hr Hc. destruct (Hrow c Hc) as [Hg Hb].
    assert (Hr' : r = 0 \/ r = 1) by lia.
    destruct Hr' as [-> | ->].
    + rewrite (write_all_In _ dss' _ (bwd_diff_gamma cfg src' diff_dst' ws' c) (Hnd _ _ _)).
      * rewrite Hg. symmetry. apply write_all_In; [apply Hnd|].
        apply in_flat_map. exists (pi c). split; [apply range_In; auto | cbn; auto].
      * apply in_flat_map. exists c. split; [now apply range_In | cbn; auto].
    + rewrite (write_all_In _ dss' _ (bwd_diff_beta cfg src' diff_dst' ws' c) (Hnd _ _ _)).
      * rewrite Hb. symmetry. apply write_all_In; [apply Hnd|].
        apply in_flat_map. exists (pi c). split; [apply range_In; auto | cbn; auto].
      * apply in_flat_map. exists c. split; [now apply range_In | cbn; auto].
Qed.

(** * Independence of the order in which the channels are served *)

Section Blocks.

Context {A : Arith} {T : Type}.
Variable block : T -> list (Z * data_t).
Variable cs : list T.
Hypothesis Hnd : NoDup cs.
Hypothesis Hdisj :
  forall x y q, In x cs -> In y cs ->
    In q (map fst (block x)) -> In q (map fst (block y)) -> x = y.

(** Blocks of writes with disjoint footprints: an offset of the footprint of
    a block ends with what that block alone leaves there. *)
Lemma write_all_blocks_at (b : buffer A) (c : T) (p : Z) :
  In c cs -> In p (map fst (block c)) ->
  write_all (flat_map block cs) b p = write_all (block c) b p.
Proof.
  revert b. induction cs as [|x l IH]; intros b Hc Hp; [contradiction|].
  inversion Hnd as [|? ? Hx Hnd']; subst.
  cbn [flat_map]. rewrite write_all_app.
  destruct Hc as [-> | Hc].
  - apply write_all_notin. intros Hin.
    apply in_map_iff in Hin. destruct Hin as [[k v] [Hk Hin]]. cbn in Hk. subst k.
    apply in_flat_map in Hin. destruct Hin as [y [Hy Hin]].
    assert (c = y).
    { apply (Hdisj c y p); [now left | now right | assumption |].
      apply in_map_iff. now exists (p, v). }
    subst. contradiction.
  - rewrite IH; try assumption.
    + now apply write_all_base.
    + intros y z q Hy Hz. apply Hdisj; now right.
Qed.

Lemma write_all_blocks_notin (b : buffer A) (p : Z) :
  (forall c, In c cs -> ~ In p (map fst (block c))) ->
  write_all (flat_map block cs) b p = b p.
Proof.
  intros Hp. apply write_all_notin. intros Hin.
  apply in_map_iff in Hin. destruct Hin as [[k v] [Hk Hin]]. cbn in Hk. subst k.
  apply in_flat_map in Hin. destruct Hin as [c [Hc Hin]].
  apply (Hp c Hc). apply in_map_iff. now exists (p, v).
Qed.

End Blocks.

(** Blocks with disjoint footprints can be performed in any order. *)
Lemma write_all_blocks_perm {A : Arith} {T : Type} (block : T -> list (Z * data_t))
    (cs cs' : list T) (b : buffer A) :
  NoDup cs ->
  (forall x y q, In x cs -> In y cs ->
     In q (map fst (block x)) -> In q (map fst (block y)) -> x = y) ->
  Permutation cs cs' ->
  buf_eq (write_all (flat_map block cs) b) (write_all (flat_map block cs') b).
Proof.
  intros Hnd Hdisj Hperm p.
  assert (Hnd' : NoDup cs') by (eapply Permutation_NoDup; eassumption).
  assert (Hdisj' : forall x y q, In x cs' -> In y cs' ->
             In q (map fst (block x)) -> In q (map fst (block y)) -> x = y).
  { intros x y q Hx Hy. apply Hdisj; eapply Permutation_in; try eassumption;
      now apply Permutation_sym. }
  destruct (in_dec Z.eq_dec p (map fst (flat_map block cs))) as [Hin | Hout].
  - apply in_map_iff in Hin. destruct Hin as [[k v] [Hk Hin]]. cbn in Hk. subst k.
    apply in_flat_map in Hin. destruct Hin as [c [Hc Hin]].
    assert (Hkey : In p (map fst (block c))) by (apply in_map_iff; now exists (p, v)).
    rewrite (write_all_blocks_at block cs Hnd Hdisj b c p Hc Hkey).
    symmetry. apply write_all_blocks_at; try assumption.
    eapply Permutation_in; eassumption.
  - rewrite !write_all_blocks_notin; [reflexivity | |].
    + intros c Hc Hkey. apply Hout. apply in_map_iff in Hkey.
      destruct Hkey as [[k v] [Hk Hin]]. cbn in Hk. subst k.
      apply in_map_iff. exists (p, v). split; [reflexivity|].
      apply in_flat_map. exists c. split; [|assumption].
      eapply Permutation_in; [|exact Hc]. now apply Permutation_sym.
    + intros c Hc Hkey. apply Hout. apply in_map_iff in Hkey.
      destruct Hkey as [[k v] [Hk Hin]]. cbn in Hk. subst k.
      apply in_map_iff. exists (p, v). split; [reflexivity|].
      apply in_flat_map. now exists c.
Qed.

Section AnyOrder.

Context {A : Arith}.
Variable cfg : bnorm_conf A.

(** The forward loop, for any order of the channels. *)
Lemma fwd_run_channels_eq (src scaleshift dst : buffer A) (ws : option (buffer A)) cs :
  (forall c, In c cs -> 0 <= c < C cfg) ->
  let s := fwd_run_channels cfg src scaleshift cs (fwd_init dst ws) in
  f_dst s = write_all (flat_map (fwd_dst_writes cfg src scaleshift) cs) dst
  /\ obuf_eq (f_ws s) (option_map (write_all (flat_map (fwd_ws_writes cfg src) cs)) ws).
Proof.
  intros Hcs. unfold fwd_init. destruct ws as [ws|]; cbn [option_map].
  - destruct cs as [|c0 l].
    + cbn. split; [reflexivity | apply buf_eq_refl].
    + assert (HC : C cfg <> 0) by (specialize (Hcs c0 (or_introl eq_refl)); lia).
      destruct (fwd_run_training cfg src scaleshift (c0 :: l) dst ws (of_int 0) (of_int 0) HC)
        as [ws' [Hrun H']].
      cbv zeta. rewrite Hrun. split; [reflexivity | exact H'].
  - destruct (fwd_run_inference cfg src scaleshift cs dst (of_int 0) (of_int 0))
      as [vm' [vv' Hrun]].
    cbv zeta. rewrite Hrun. split; [reflexivity | exact I].
Qed.

Lemma fwd_dst_blocks_disjoint (src scaleshift : buffer A) cs :
  channel_separated4 (src_pd cfg) (MB cfg) (C cfg) (H cfg) (W cfg) ->
  (forall c, In c cs -> 0 <= c < C cfg) ->
  forall x y q, In x cs -> In y cs ->
    In q (map fst (fwd_dst_writes cfg src scaleshift x)) ->
    In q (map fst (fwd_dst_writes cfg src scaleshift y)) -> x = y.
Proof.
  intros Hsep Hcs x y q Hx Hy Hqx Hqy.
  rewrite fwd_dst_writes_chan in Hqx, Hqy. apply chan_writes_keys in Hqx, Hqy.
  destruct Hqx as [n [h [w [Hn [Hh [Hw ->]]]]]].
  destruct Hqy as [n' [h' [w' [Hn' [Hh' [Hw' Heq]]]]]].
  apply Hsep in Heq; auto.
Qed.

Lemma fwd_ws_blocks_disjoint (src : buffer A) cs :
  (forall c, In c cs -> 0 <= c < C cfg) ->
  forall x y q, In x cs -> In y cs ->
    In q (map fst (fwd_ws_writes cfg src x)) ->
    In q (map fst (fwd_ws_writes cfg src y)) -> x = y.
Proof.
  intros Hcs x y q Hx Hy Hqx Hqy. pose proof (Hcs x Hx). pose proof (Hcs y Hy).
  unfold fwd_ws_writes, fwd_ws_mean, fwd_ws_variance in *. cbn in Hqx, Hqy. lia.
Qed.

Lemma bwd_src_blocks_disjoint (src diff_dst scaleshift ws : buffer A) cs :
  channel_separated4 (diff_src_pd cfg) (MB cfg) (C cfg) (H cfg) (W cfg) ->
  (forall c, In c cs -> 0 <= c < C cfg) ->
  forall x y q, In x cs -> In y cs ->
    In q (map fst (bwd_src_writes cfg src diff_dst scaleshift ws x)) ->
    In q (map fst (bwd_src_writes cfg src diff_dst scaleshift ws y)) -> x = y.
Proof.
  intros Hsep Hcs x y q Hx Hy Hqx Hqy.
  rewrite bwd_src_writes_chan in Hqx, Hqy. apply chan_writes_keys in Hqx, Hqy.
  destruct Hqx as [n [h [w [Hn [Hh [Hw ->]]]]]].
  destruct Hqy as [n' [h' [w' [Hn' [Hh' [Hw' Heq]]]]]].
  apply Hsep in Heq; auto.
Qed.

Lemma bwd_ss_blocks_disjoint (src diff_dst ws : buffer A) cs :
  channel_separated2 (diff_weights_pd cfg) (C cfg) ->
  (forall c, In c cs -> 0 <= c < C cfg) ->
  forall x y q, In x cs -> In y cs ->
    In q (map fst (bwd_ss_writes cfg src diff_dst ws x)) ->
    In q (map fst (bwd_ss_writes cfg src diff_dst ws y)) -> x = y.
Proof.
  intros Hsep Hcs x y q Hx Hy Hqx Hqy. pose proof (Hcs x Hx). pose proof (Hcs y Hy).
  cbn in Hqx, Hqy.
  destruct Hqx as [<- | [<- | []]]; destruct Hqy as [Heq | [Heq | []]];
    apply Hsep in Heq; lia.
Qed.

(** One iteration of the forward loop writes dst only at the offsets of its
    channel and the workspace only at its two cells. *)
Lemma fwd_channel_footprint (src scaleshift : buffer A) (c : Z) (s : fwd_state A) :
  0 <= c < C cfg ->
  let s' := fwd_channel cfg src scaleshift c s in
  (forall p,
      (forall n h w, 0 <= n < MB cfg -> 0 <= h < H cfg -> 0 <= w < W cfg ->
                     p <> off (src_pd cfg) [n; c; h; w]) ->
      f_dst s' p = f_dst s p)
  /\ match f_ws s, f_ws s' with
     | Some w, Some w' => forall p, p <> c -> p <> C cfg + c -> w' p = w p
     | None, None => True
     | _, _ => False
     end.
Proof.
  intros Hc. destruct s as [d [w|] vm vv]; cbv zeta.
  - destruct (fwd_channel_training cfg src scaleshift c d w vm vv) as [w' [-> Hw']]; [lia|].
    cbn [f_dst f_ws]. split.
    + intros p Hp. apply write_all_notin. intros Hin.
      rewrite fwd_dst_writes_chan in Hin. apply chan_writes_keys in Hin.
      destruct Hin as [n [h [w0 [Hn [Hh [Hw0 Heq]]]]]]. now apply (Hp n h w0).
    + intros p Hm Hv. rewrite Hw'. apply write_all_notin.
      unfold fwd_ws_writes, fwd_ws_mean, fwd_ws_variance. cbn. lia.
  - rewrite fwd_channel_inference. cbn [f_dst f_ws]. split; [|exact I].
    intros p Hp. apply write_all_notin. intros Hin.
    rewrite fwd_dst_writes_chan in Hin. apply chan_writes_keys in Hin.
    destruct Hin as [n [h [w0 [Hn [Hh [Hw0 Heq]]]]]]. now apply (Hp n h w0).
Qed.

(** One iteration of the backward loop writes diff_src only at the offsets
    of its channel and diff_scaleshift only at its two elements. *)
Lemma bwd_channel_footprint (src diff_dst scaleshift ws : buffer A) (c : Z)
    (s : bwd_state A) :
  let s' := bwd_channel cfg src diff_dst scaleshift ws c s in
  (forall p,
      (forall n h w, 0 <= n < MB cfg -> 0 <= h < H cfg -> 0 <= w < W cfg ->
                     p <> off (diff_src_pd cfg) [n; c; h; w]) ->
      b_diff_src s' p = b_diff_src s p)
  /\ match b_diff_scaleshift s, b_diff_scaleshift s' with
     | Some o, Some o' =>
         forall p, p <> off (diff_weights_pd cfg) [0; c] ->
                   p <> off (diff_weights_pd cfg) [1; c] -> o' p = o p
     | None, None => True
     | _, _ => False
     end.
Proof.
  destruct s as [d dss]. cbv zeta.
  destruct (bwd_channel_eq cfg src diff_dst scaleshift ws c d dss) as [d' [-> Hd']].
  cbn [b_diff_src b_diff_scaleshift]. split.
  - intros p Hp. rewrite Hd'. apply write_all_notin. intros Hin.
    rewrite bwd_src_writes_chan in Hin. apply chan_writes_keys in Hin.
    destruct Hin as [n [h [w0 [Hn [Hh [Hw0 Heq]]]]]]. now apply (Hp n h w0).
  - destruct dss as [o|]; cbn [option_map]; [|exact I].
    intros p H0 H1. apply write_all_notin. cbn. intros [E | [E | []]]; congruence.
Qed.

End AnyOrder.

(** C10.  Both kernels are functions of their inputs.  An iteration of the
    loop over the channels writes only the locations of its own channel, and
    when the offset mappings keep the channels apart the outputs do not depend
    on the order in which the channels are served: serving them in any order
    [cs] leaves the dst and workspace of [execute_forward], and the diff_src
    and diff_scaleshift of [execute_backward]. *)
Theorem channel_order_irrelevant {A : Arith} (cfg : bnorm_conf A)
    (src scaleshift diff_dst ws_in dst diff_src : buffer A)
    (ws dss : option (buffer A)) (cs : list Z) :
  Permutation (range (C cfg)) cs ->
  channel_separated4 (src_pd cfg) (MB cfg) (C cfg) (H cfg) (W cfg) ->
  channel_separated4 (diff_src_pd cfg) (MB cfg) (C cfg) (H cfg) (W cfg) ->
  channel_separated2 (diff_weights_pd cfg) (C cfg) ->
  (let s := fwd_run_channels cfg src scaleshift cs (fwd_init dst ws) in
   buf_eq (fst (execute_forward cfg src scaleshift dst ws)) (f_dst s)
   /\ obuf_eq (snd (execute_forward cfg src scaleshift dst ws)) (f_ws s))
  /\ (let s := bwd_run_channels cfg src diff_dst scaleshift ws_in cs (mk_bwd diff_src dss) in
      buf_eq (fst (execute_backward cfg src diff_dst scaleshift ws_in diff_src dss))
             (b_diff_src s)
      /\ obuf_eq (snd (execute_backward cfg src diff_dst scaleshift ws_in diff_src dss))
                 (b_diff_scaleshift s))
  /\ (forall c s, 0 <= c < C cfg ->
        let s' := fwd_channel cfg src scaleshift c s in
        (forall p,
            (forall n h w, 0 <= n < MB cfg -> 0 <= h < H cfg -> 0 <= w < W cfg ->
                           p <> off (src_pd cfg) [n; c; h; w]) ->
            f_dst s' p = f_dst s p)
        /\ match f_ws s, f_ws s' with
           | Some w, Some w' => forall p, p <> c -> p <> C cfg + c -> w' p = w p
           | None, None => True
           | _, _ => False
           end)
  /\ (forall c s, 0 <= c < C cfg ->
        let s' := bwd_channel cfg src diff_dst scaleshift ws_in c s in
        (forall p,
            (forall n h w, 0 <= n < MB cfg -> 0 <= h < H cfg -> 0 <= w < W cfg ->
                           p <> off (diff_src_pd cfg) [n; c; h; w]) ->
            b_diff_src s' p = b_diff_src s p)
        /\ match b_diff_scaleshift s, b_diff_scaleshift s' with
           | Some o, Some o' =>
               forall p, p <> off (diff_weights_pd cfg) [0; c] ->
                         p <> off (diff_weights_pd cfg) [1; c] -> o' p = o p
           | None, None => True
           | _, _ => False
           end).
Proof.
  intros Hperm Hsep Hsepd Hsep2.
  assert (Hr : forall c, In c (range (C cfg)) -> 0 <= c < C cfg) by (intros c; apply range_In).
  assert (Hcs : forall c, In c cs -> 0 <= c < C cfg).
  { intros c Hc. apply Hr. eapply Permutation_in; [|exact Hc]. now apply Permutation_sym. }
  pose proof (range_NoDup (C cfg)) as Hnd.
  split; [|split; [|split]];
    [| | intros c s Hc; now apply fwd_channel_footprint
       | intros c s _; apply bwd_channel_footprint].
  - destruct (fwd_run_channels_eq cfg src scaleshift dst ws cs Hcs) as [Hd Hw].
    destruct (fwd_run_channels_eq cfg src scaleshift dst ws (range (C cfg)) Hr) as [Hd0 Hw0].
    cbv zeta. unfold execute_forward. cbn [fst snd]. rewrite Hd, Hd0. split.
    + apply write_all_blocks_perm; try assumption.
      now apply fwd_dst_blocks_disjoint.
    + destruct ws as [w|]; cbn [option_map] in *.
      * destruct (f_ws (fwd_run_channels cfg src scaleshift (range (C cfg)) (fwd_init dst (Some w))))
          as [w0|]; [|contradiction].
        destruct (f_ws (fwd_run_channels cfg src scaleshift cs (fwd_init dst (Some w))))
          as [w1|]; [|contradiction].
        cbn [obuf_eq] in *.
        eapply buf_eq_trans; [exact Hw0|].
        eapply buf_eq_trans; [|apply buf_eq_sym; exact Hw].
        apply write_all_blocks_perm; try assumption.
        now apply fwd_ws_blocks_disjoint.
      * destruct (f_ws (fwd_run_channels cfg src scaleshift (range (C cfg)) (fwd_init dst None)));
          [contradiction|].
        destruct (f_ws (fwd_run_channels cfg src scaleshift cs (fwd_init dst None)));
          [contradiction | exact I].
  - destruct (bwd_run_eq cfg src diff_dst scaleshift ws_in cs diff_src dss) as [d [Hrun Hd]].
    destruct (bwd_run_eq cfg src diff_dst scaleshift ws_in (range (C cfg)) diff_src dss)
      as [d0 [Hrun0 Hd0]].
    cbv zeta. unfold execute_backward. rewrite Hrun, Hrun0. cbn [fst snd b_diff_src b_diff_scaleshift].
    split.
    + eapply buf_eq_trans; [exact Hd0|].
      eapply buf_eq_trans; [|apply buf_eq_sym; exact Hd].
      apply write_all_blocks_perm; try assumption.
      now apply bwd_src_blocks_disjoint.
    + destruct dss as [o|]; cbn [option_map obuf_eq]; [|exact I].
      apply write_all_blocks_perm; try assumption.
      now apply bwd_ss_blocks_disjoint.
Qed.

(** * How the buffers are addressed *)

(** C9, as stated, fails on the workspace.  With a workspace descriptor that
    has padding in front, [execute_forward] still stores the statistics at
    offsets 0 and C; with a workspace descriptor of stride 2,
    [execute_backward] reads the second statistic of channel 1 at offset
    [off(C) + 1] = 5, which is the image of no logical index. *)
Lemma workspace_not_through_descriptor :
  ~ fwd_ws_through_descriptor (@padded_ws_cfg F32.arith) ex_src ex_scaleshift zeros zeros
  /\ ~ bwd_ws_through_descriptor (@strided_ws_cfg F32.arith) ex_src ones ones zeros.
Proof.
  split.
  - intros [ws' [Hsome Hcells]].
    destruct (execute_forward_ws_at (@padded_ws_cfg F32.arith) ex_src ex_scaleshift zeros zeros)
      as [ws1 [Hsome1 [_ Hframe]]].
    rewrite Hsome in Hsome1. injection Hsome1 as <-.
    destruct (Hcells 0) as [Hm _]; [cbn; lia|].
    rewrite Hframe in Hm by (cbn; lia).
    vm_compute in Hm. discriminate Hm.
  - intros Hdep.
    specialize (Hdep ones (fun p => if p =? 5 then of_int 2 else of_int 1)).
    assert (Hagree : forall i, 0 <= i < 2 * C (@strided_ws_cfg F32.arith) ->
              @ones F32.arith (off (workspace_pd (@strided_ws_cfg F32.arith)) [i])
              = (fun p => if p =? 5 then of_int 2 else of_int 1)
                  (off (workspace_pd (@strided_ws_cfg F32.arith)) [i])).
    { intros i Hi. cbn in Hi. cbn [off workspace_pd strided_ws_cfg row_major].
      destruct (Z.eqb_spec (2 * (0 * 4 + i)) 5) as [Heq | _]; [lia | reflexivity]. }
    specialize (Hdep Hagree 1). vm_compute in Hdep. discriminate Hdep.
Qed.

(** C9, amended.  src, dst, scaleshift, diff_dst, diff_src and
    diff_scaleshift are addressed through their descriptors: a second
    invocation with other descriptors and the same logical contents gives the
    same logical outputs, and nothing is written outside the images of the
    descriptors of dst, diff_src and diff_scaleshift.  The workspace is
    addressed as two rows of C contiguous elements: [execute_forward] stores
    row 0 from offset 0 and row 1 from offset C, with no descriptor;
    [execute_backward] reads element c of the rows at [workspace_d.off(0) + c]
    and [workspace_d.off(C) + c] (the relation [related_ws]). *)
Theorem buffers_through_descriptors {A : Arith} (cfg cfg' : bnorm_conf A)
    (src src' scaleshift scaleshift' diff_dst diff_dst' ws ws' : buffer A)
    (dst dst' diff_src diff_src' : buffer A) :
  same_shape cfg cfg' ->
  layout4 (src_pd cfg) (MB cfg) (C cfg) (H cfg) (W cfg) ->
  layout4 (src_pd cfg') (MB cfg) (C cfg) (H cfg) (W cfg) ->
  layout4 (diff_src_pd cfg) (MB cfg) (C cfg) (H cfg) (W cfg) ->
  layout4 (diff_src_pd cfg') (MB cfg) (C cfg) (H cfg) (W cfg) ->
  layout2 (diff_weights_pd cfg) (C cfg) ->
  layout2 (diff_weights_pd cfg') (C cfg) ->
  related4 (MB cfg) (C cfg) (H cfg) (W cfg) (fun c => c) (src_pd cfg) (src_pd cfg') src src' ->
  related2 (C cfg) (fun c => c) (weights_pd cfg) (weights_pd cfg') scaleshift scaleshift' ->
  related4 (MB cfg) (C cfg) (H cfg) (W cfg) (fun c => c) (diff_src_pd cfg) (diff_src_pd cfg')
           diff_dst diff_dst' ->
  related_ws cfg cfg' (fun c => c) ws ws' ->
  (* forward: dst *)
  (forall wso wso',
      related4 (MB cfg) (C cfg) (H cfg) (W cfg) (fun c => c) (src_pd cfg) (src_pd cfg')
        (fst (execute_forward cfg src scaleshift dst wso))
        (fst (execute_forward cfg' src' scaleshift' dst' wso')))
  /\ (forall wso p,
         (forall n c h w, 0 <= n < MB cfg -> 0 <= c < C cfg -> 0 <= h < H cfg -> 0 <= w < W cfg ->
                          p <> off (src_pd cfg) [n; c; h; w]) ->
         fst (execute_forward cfg src scaleshift dst wso) p = dst p)
  (* forward: workspace *)
  /\ (forall ws0, exists w,
         snd (execute_forward cfg src scaleshift dst (Some ws0)) = Some w
         /\ (forall c, 0 <= c < C cfg ->
               w c = fwd_mean cfg src c /\ w (C cfg + c) = fwd_invstd cfg src c)
         /\ (forall p, ~ 0 <= p < 2 * C cfg -> w p = ws0 p))
  (* backward: diff_src *)
  /\ (forall dss dss',
         related4 (MB cfg) (C cfg) (H cfg) (W cfg) (fun c => c) (diff_src_pd cfg) (diff_src_pd cfg')
           (fst (execute_backward cfg src diff_dst scaleshift ws diff_src dss))
           (fst (execute_backward cfg' src' diff_dst' scaleshift' ws' diff_src' dss')))
  /\ (forall dss p,
         (forall n c h w, 0 <= n < MB cfg -> 0 <= c < C cfg -> 0 <= h < H cfg -> 0 <= w < W cfg ->
                          p <> off (diff_src_pd cfg) [n; c; h; w]) ->
         fst (execute_backward cfg src diff_dst scaleshift ws diff_src dss) p = diff_src p)
  (* backward: diff_scaleshift *)
  /\ (forall dss dss', exists o o',
         snd (execute_backward cfg src diff_dst scaleshift ws diff_src (Some dss)) = Some o
         /\ snd (execute_backward cfg' src' diff_dst' scaleshift' ws' diff_src' (Some dss'))
            = Some o'
         /\ related2 (C cfg) (fun c => c) (diff_weights_pd cfg) (diff_weights_pd cfg') o o'
         /\ (forall p, (forall r c, 0 <= r < 2 -> 0 <= c < C cfg ->
                                    p <> off (diff_weights_pd cfg) [r; c]) ->
                       o p = dss p)).
Proof.
  intros Hshape Hl Hl' Hld Hld' Hl2 Hl2' Hsrc Hss Hdd Hws.
  pose proof Hshape as [HN [HC [HH [HW He]]]].
  rewrite <- HN, <- HC, <- HH, <- HW in Hl', Hld'. rewrite <- HC in Hl2'.
  split; [|split; [|split; [|split; [|split]]]].
  - intros wso wso' n c h w Hn Hc Hh Hw.
    rewrite (execute_forward_dst_at cfg) by assumption.
    rewrite (execute_forward_dst_at cfg') by (try assumption; lia).
    apply (fwd_out_related cfg cfg' (fun c => c) Hshape src src' scaleshift scaleshift' Hsrc Hss);
      [assumption|]. now apply nhw_order_In.
  - intros wso p Hp. rewrite execute_forward_dst.
    apply (chan_writes_frame (src_pd cfg) (MB cfg) (H cfg) (W cfg)).
    intros n c h w Hc Hn Hh Hw. apply range_In in Hc. now apply Hp.
  - intros ws0.
    destruct (execute_forward_ws_at cfg src scaleshift dst ws0) as [w [Hsome [Hcells Hframe]]].
    exists w. split; [exact Hsome|]. split; [|exact Hframe].
    intros c Hc. now apply Hcells.
  - intros dss dss' n c h w Hn Hc Hh Hw.
    rewrite (execute_backward_diff_src_at cfg) by assumption.
    rewrite (execute_backward_diff_src_at cfg') by (try assumption; lia).
    apply (bwd_out_related cfg cfg' (fun c => c) Hshape src src' diff_dst diff_dst'
             scaleshift scaleshift' ws ws' Hsrc Hss Hdd Hws); [assumption|].
    now apply nhw_order_In.
  - intros dss p Hp. rewrite execute_backward_diff_src.
    apply (chan_writes_frame (diff_src_pd cfg) (MB cfg) (H cfg) (W cfg)).
    intros n c h w Hc Hn Hh Hw. apply range_In in Hc. now apply Hp.
  - intros dss dss'.
    destruct (execute_backward_diff_scaleshift_frame cfg src diff_dst scaleshift ws diff_src dss
                Hl2) as [o [Ho [Hcells Hframe]]].
    destruct (execute_backward_diff_scaleshift_frame cfg' src' diff_dst' scaleshift' ws' diff_src'
                dss' Hl2') as [o' [Ho' [Hcells' _]]].
    exists o, o'. split; [exact Ho|]. split; [exact Ho'|]. split.
    + intros r c Hr Hc.
      destruct (Hcells c Hc) as [Hg Hb]. destruct (Hcells' c) as [Hg' Hb']; [lia|].
      assert (Hr' : r = 0 \/ r = 1) by lia.
      destruct Hr' as [-> | ->].
      * rewrite Hg, Hg'.
        now apply (bwd_diff_gamma_related cfg cfg' (fun c => c) Hshape src src'
                     diff_dst diff_dst' ws ws').
      * rewrite Hb, Hb'.
        now apply (bwd_diff_beta_related cfg cfg' (fun c => c) Hshape src src'
                     diff_dst diff_dst' ws ws').
    + exact Hframe.
Qed.

(** X4.  The two kernels agree on the place of the statistics when the workspace
    descriptor sends the logical indices 0 and C to the offsets 0 and C: the
    backward kernel then reads what the forward kernel has stored. *)
Lemma workspace_round_trip {A : Arith} (cfg : bnorm_conf A)
    (src scaleshift dst ws0 : buffer A) :
  off (workspace_pd cfg) [0] = 0 ->
  off (workspace_pd cfg) [C cfg] = C cfg ->
  exists ws',
    snd (execute_forward cfg src scaleshift dst (Some ws0)) = Some ws'
    /\ forall c, 0 <= c < C cfg ->
         bwd_mean cfg ws' c = fwd_mean cfg src c
         /\ bwd_invstd cfg ws' c = fwd_invstd cfg src c.
Proof.
  intros H0 HC.
  destruct (execute_forward_ws_at cfg src scaleshift dst ws0) as [ws' [Hsome [Hcells _]]].
  exists ws'. split; [exact Hsome|].
  intros c Hc. unfold bwd_mean, bwd_invstd, bwd_ws_mean, bwd_ws_variance.
  rewrite H0, HC. now apply Hcells.
Qed.

(** * Instances of the theorems on small inputs *)

(** Unfolding of the fields of the example configurations. *)
Ltac cfg_simpl :=
  cbn [off src_pd weights_pd diff_src_pd diff_weights_pd workspace_pd MB C H W
       relaid_cfg two_channel_cfg plain row_major].

(** Case analysis on small index ranges. *)
Ltac small_cases :=
  repeat match goal with
         | H : 0 <= ?x < 1 |- _ => assert (x = 0) by lia; clear H; subst x
         | H : 0 <= ?x < 2 |- _ =>
             let H' := fresh in
             assert (H' : x = 0 \/ x = 1) by lia; clear H; destruct H'; subst x
         end.

(** Exchanging the two channels of the inputs exchanges them in dst. *)
Lemma channel_permutation_equivariance_witness :
  fst (execute_forward (@two_channel_cfg F32.arith) (swap_channels ex_src)
         (swap_channels ex_scaleshift) zeros None) 0
  = fst (execute_forward (@two_channel_cfg F32.arith) ex_src ex_scaleshift zeros None) 1.
Proof.
  destruct (channel_permutation_equivariance (@two_channel_cfg F32.arith) (fun c => 1 - c)
              ex_src (swap_channels ex_src) ex_scaleshift (swap_channels ex_scaleshift)
              ex_src (swap_channels ex_src) ones (swap_channels ones)
              zeros zeros zeros zeros) as [Hdst _].
  - change (range (C (@two_channel_cfg F32.arith))) with [0; 1]. apply perm_swap.
  - intros n c h w n' c' h' w'. cbn. lia.
  - intros n c h w n' c' h' w'. cbn. lia.
  - intros r c r' c'. cbn. lia.
  - intros n c h w Hn Hc Hh Hw. cbn in Hn, Hc, Hh, Hw. small_cases; reflexivity.
  - intros r c Hr Hc. cbn in Hc. small_cases; reflexivity.
  - intros n c h w Hn Hc Hh Hw. cbn in Hn, Hc, Hh, Hw. small_cases; reflexivity.
  - intros c Hc. cbn in Hc. small_cases; split; reflexivity.
  - apply (Hdst None None 0 0 0 0); cbn; lia.
Defined.

(** Serving channel 1 before channel 0. *)
Lemma channel_order_irrelevant_witness :
  buf_eq (fst (execute_forward (@two_channel_cfg F32.arith) ex_src ex_scaleshift zeros
                 (Some zeros)))
         (f_dst (fwd_run_channels (@two_channel_cfg F32.arith) ex_src ex_scaleshift [1; 0]
                   (fwd_init zeros (Some zeros)))).
Proof.
  destruct (channel_order_irrelevant (@two_channel_cfg F32.arith) ex_src ex_scaleshift
              ex_src ones zeros zeros (Some zeros) (Some zeros) [1; 0]) as [[Hdst _] _].
  - change (range (C (@two_channel_cfg F32.arith))) with [0; 1]. apply perm_swap.
  - intros n c h w n' c' h' w'. cbn. lia.
  - intros n c h w n' c' h' w'. cbn. lia.
  - intros r c r' c'. cbn. lia.
  - exact Hdst.
Defined.

(** The dense and the relaid invocation give the same logical dst. *)
Lemma buffers_through_descriptors_witness :
  fst (execute_forward (@relaid_cfg F32.arith) (relaid_data ex_src) (relaid_rows ex_scaleshift)
         zeros None) (off (src_pd (@relaid_cfg F32.arith)) [0; 1; 0; 0])
  = fst (execute_forward (@two_channel_cfg F32.arith) ex_src ex_scaleshift zeros None)
        (off (src_pd (@two_channel_cfg F32.arith)) [0; 1; 0; 0]).
Proof.
  destruct (buffers_through_descriptors (@two_channel_cfg F32.arith) (@relaid_cfg F32.arith)
              ex_src (relaid_data ex_src) ex_scaleshift (relaid_rows ex_scaleshift)
              ex_src (relaid_data ex_src) ones (relaid_ws ones)
              zeros zeros zeros zeros) as [Hdst _].
  - unfold same_shape. cbn. tauto.
  - intros n c h w n' c' h' w'. cfg_simpl. lia.
  - intros n c h w n' c' h' w'. cfg_simpl. lia.
  - intros n c h w n' c' h' w'. cfg_simpl. lia.
  - intros n c h w n' c' h' w'. cfg_simpl. lia.
  - intros r c r' c'. cfg_simpl. lia.
  - intros r c r' c'. cfg_simpl. lia.
  - intros n c h w Hn Hc Hh Hw. cbn in Hn, Hc, Hh, Hw. small_cases; reflexivity.
  - intros r c Hr Hc. cbn in Hc. small_cases; reflexivity.
  - intros n c h w Hn Hc Hh Hw. cbn in Hn, Hc, Hh, Hw. small_cases; reflexivity.
  - intros c Hc. cbn in Hc. small_cases; split; reflexivity.
  - apply (Hdst None None 0 1 0 0); cbn; lia.
Defined.

(** * Further properties of the two kernels *)

(** ** Prior contents of the output buffers *)

Lemma write_all_idem {A : Arith} (l : list (Z * data_t)) (b : buffer A) :
  buf_eq (write_all l (write_all l b)) (write_all l b).
Proof.
  intros p. destruct (in_dec Z.eq_dec p (map fst l)) as [Hin | Hout].
  - now apply write_all_base.
  - now rewrite !write_all_notin.
Qed.

Lemma chan_writes_key_In {A : Arith} (d : memory_desc_wrapper) (N C H W : Z)
    (val : Z -> Z * Z * Z -> data_t) (n c h w : Z) :
  0 <= n < N -> 0 <= c < C -> 0 <= h < H -> 0 <= w < W ->
  In (off d [n; c; h; w]) (map fst (flat_map (chan_writes d N H W val) (range C))).
Proof.
  intros Hn Hc Hh Hw. apply in_map_iff.
  exists (off d [n; c; h; w], val c (n, h, w)). split; [reflexivity|].
  apply in_flat_map. exists c. split; [now apply range_In | now apply chan_writes_In].
Qed.

(** X1.  [execute_forward] never reads dst or the workspace as the caller left
    them: what it leaves in dst at the offset of any logical index does not
    depend on the prior dst, on the prior workspace or on the mode, and what
    it leaves in the 2C elements of the workspace depends neither on the prior
    workspace nor on dst or scaleshift.  No property of the descriptor is
    needed. *)
Theorem execute_forward_overwrites {A : Arith} (cfg : bnorm_conf A)
    (src scaleshift scaleshift' dst dst' : buffer A) :
  (forall wso wso' n c h w,
      0 <= n < MB cfg -> 0 <= c < C cfg -> 0 <= h < H cfg -> 0 <= w < W cfg ->
      fst (execute_forward cfg src scaleshift dst wso) (off (src_pd cfg) [n; c; h; w])
      = fst (execute_forward cfg src scaleshift dst' wso') (off (src_pd cfg) [n; c; h; w]))
  /\ (forall ws ws', exists w w',
         snd (execute_forward cfg src scaleshift dst (Some ws)) = Some w
         /\ snd (execute_forward cfg src scaleshift' dst' (Some ws')) = Some w'
         /\ forall p, 0 <= p < 2 * C cfg -> w p = w' p).
Proof.
  split.
  - intros wso wso' n c h w Hn Hc Hh Hw. rewrite !execute_forward_dst.
    apply write_all_base.
    apply (chan_writes_key_In (src_pd cfg) (MB cfg) (C cfg) (H cfg) (W cfg)); assumption.
  - intros ws ws'.
    destruct (execute_forward_ws_at cfg src scaleshift dst ws) as [w [Hw [Hcells _]]].
    destruct (execute_forward_ws_at cfg src scaleshift' dst' ws') as [w' [Hw' [Hcells' _]]].
    exists w, w'. split; [exact Hw|]. split; [exact Hw'|].
    intros p Hp. unfold fwd_ws_mean, fwd_ws_variance in *.
    destruct (Z_lt_ge_dec p (C cfg)) as [Hlt | Hge].
    + destruct (Hcells p) as [Hm _]; [lia|]. destruct (Hcells' p) as [Hm' _]; [lia|].
      cbn [Z.add] in Hm, Hm'. now rewrite Hm, Hm'.
    + destruct (Hcells (p - C cfg)) as [_ Hv]; [lia|].
      destruct (Hcells' (p - C cfg)) as [_ Hv']; [lia|].
      replace (C cfg + (p - C cfg)) with p in Hv, Hv' by lia. now rewrite Hv, Hv'.
Qed.

Lemma execute_forward_overwrites_witness :
  fst (execute_forward (@two_channel_cfg F32.arith) ex_src ex_scaleshift zeros None) 1
  = fst (execute_forward (@two_channel_cfg F32.arith) ex_src ex_scaleshift ones (Some ones)) 1.
Proof.
  destruct (execute_forward_overwrites (@two_channel_cfg F32.arith) ex_src ex_scaleshift
              ex_scaleshift zeros ones) as [Hdst _].
  apply (Hdst None (Some ones) 0 1 0 0); cbn; lia.
Defined.

(** X2.  [execute_backward] reads diff_src back in [diff_src[...] *= gamma*variance],
    but only what it has just stored there: what it leaves in diff_src at the
    offset of any logical index, and in diff_scaleshift at the offsets of its
    2C elements, does not depend on the prior contents of the two buffers,
    and diff_src does not depend on whether diff_scaleshift is null. *)
Theorem execute_backward_overwrites {A : Arith} (cfg : bnorm_conf A)
    (src diff_dst scaleshift ws diff_src diff_src' : buffer A) :
  (forall dss dss' n c h w,
      0 <= n < MB cfg -> 0 <= c < C cfg -> 0 <= h < H cfg -> 0 <= w < W cfg ->
      fst (execute_backward cfg src diff_dst scaleshift ws diff_src dss)
          (off (diff_src_pd cfg) [n; c; h; w])
      = fst (execute_backward cfg src diff_dst scaleshift ws diff_src' dss')
            (off (diff_src_pd cfg) [n; c; h; w]))
  /\ (forall o o', exists r r',
         snd (execute_backward cfg src diff_dst scaleshift ws diff_src (Some o)) = Some r
         /\ snd (execute_backward cfg src diff_dst scaleshift ws diff_src' (Some o')) = Some r'
         /\ forall k c, 0 <= k < 2 -> 0 <= c < C cfg ->
              r (off (diff_weights_pd cfg) [k; c]) = r' (off (diff_weights_pd cfg) [k; c])).
Proof.
  split.
  - intros dss dss' n c h w Hn Hc Hh Hw. rewrite !execute_backward_diff_src.
    apply write_all_base.
    apply (chan_writes_key_In (diff_src_pd cfg) (MB cfg) (C cfg) (H cfg) (W cfg)); assumption.
  - intros o o'. rewrite !execute_backward_diff_scaleshift. cbn [option_map].
    eexists. eexists. split; [reflexivity|]. split; [reflexivity|].
    intros k c Hk Hc. apply write_all_base.
    apply in_map_iff.
    assert (Hk' : k = 0 \/ k = 1) by lia. destruct Hk' as [-> | ->].
    + exists (off (diff_weights_pd cfg) [0; c], bwd_diff_gamma cfg src diff_dst ws c).
      split; [reflexivity|]. apply in_flat_map. exists c.
      split; [now apply range_In | cbn; auto].
    + exists (off (diff_weights_pd cfg) [1; c], bwd_diff_beta cfg src diff_dst ws c).
      split; [reflexivity|]. apply in_flat_map. exists c.
      split; [now apply range_In | cbn; auto].
Qed.

Lemma execute_backward_overwrites_witness :
  fst (execute_backward (@two_channel_cfg F32.arith) ex_src ex_src ex_scaleshift ones zeros None) 1
  = fst (execute_backward (@two_channel_cfg F32.arith) ex_src ex_src ex_scaleshift ones ones
           (Some ones)) 1.
Proof.
  destruct (execute_backward_overwrites (@two_channel_cfg F32.arith) ex_src ex_src
              ex_scaleshift ones zeros ones) as [Hsrc _].
  apply (Hsrc None (Some ones) 0 1 0 0); cbn; lia.
Defined.

(** X3.  Running [execute_forward] again on the dst and workspace it has produced
    changes nothing, and so does running [execute_backward] again on its
    diff_src and diff_scaleshift. *)
Theorem kernels_idempotent {A : Arith} (cfg : bnorm_conf A)
    (src scaleshift diff_dst ws_in dst diff_src : buffer A) (ws dss : option (buffer A)) :
  (let r := execute_forward cfg src scaleshift dst ws in
   let r2 := execute_forward cfg src scaleshift (fst r) (snd r) in
   buf_eq (fst r2) (fst r) /\ obuf_eq (snd r2) (snd r))
  /\ (let r := execute_backward cfg src diff_dst scaleshift ws_in diff_src dss in
      let r2 := execute_backward cfg src diff_dst scaleshift ws_in (fst r) (snd r) in
      buf_eq (fst r2) (fst r) /\ obuf_eq (snd r2) (snd r)).
Proof.
  split; cbv zeta.
  - split.
    + rewrite !execute_forward_dst. apply write_all_idem.
    + pose proof (execute_forward_ws cfg src scaleshift dst ws) as H1.
      pose proof (execute_forward_ws cfg src scaleshift
                    (fst (execute_forward cfg src scaleshift dst ws))
                    (snd (execute_forward cfg src scaleshift dst ws))) as H2.
      destruct ws as [w|]; cbn [option_map] in H1.
      * destruct (snd (execute_forward cfg src scaleshift dst (Some w))) as [w1|];
          [|contradiction].
        cbn [option_map] in H2.
        destruct (snd (execute_forward cfg src scaleshift _ (Some w1))) as [w2|];
          [|contradiction].
        cbn [obuf_eq] in *. intros p. rewrite H2.
        rewrite (write_all_buf_eq _ _ _ H1 p), H1. apply write_all_idem.
      * destruct (snd (execute_forward cfg src scaleshift dst None)); [contradiction|].
        cbn [option_map] in H2.
        destruct (snd (execute_forward cfg src scaleshift _ None)); [contradiction | exact I].
  - split.
    + intros p. rewrite execute_backward_diff_src.
      rewrite (write_all_buf_eq _ _ _ (execute_backward_diff_src cfg src diff_dst scaleshift
                                         ws_in diff_src dss) p).
      rewrite execute_backward_diff_src. apply write_all_idem.
    + rewrite !execute_backward_diff_scaleshift.
      destruct dss as [o|]; cbn [option_map obuf_eq]; [|exact I].
      apply write_all_idem.
Qed.

(** The statistics a forward call in training mode has stored are the ones
    a backward call reads, on a dense two-channel workspace. *)
Lemma workspace_round_trip_witness :
  exists ws',
    snd (execute_forward (@two_channel_cfg F32.arith) ex_src ex_scaleshift zeros (Some zeros))
    = Some ws'
    /\ forall c, 0 <= c < C (@two_channel_cfg F32.arith) ->
         bwd_mean two_channel_cfg ws' c = fwd_mean two_channel_cfg ex_src c
         /\ bwd_invstd two_channel_cfg ws' c = fwd_invstd two_channel_cfg ex_src c.
Proof.
  apply (workspace_round_trip (@two_channel_cfg F32.arith) ex_src ex_scaleshift zeros zeros).
  - reflexivity.
  - reflexivity.
Defined.

(** ** An empty batch-spatial volume *)

Lemma flat_map_nil {T U : Type} (l : list T) : flat_map (fun _ : T => @nil U) l = [].
Proof. induction l as [|x l IH]; [reflexivity | exact IH]. Qed.

Lemma flat_map_ext_in {T U : Type} (f g : T -> list U) (l : list T) :
  (forall x, In x l -> f x = g x) -> flat_map f l = flat_map g l.
Proof.
  induction l as [|x l IH]; intros Hfg; [reflexivity|]. cbn [flat_map].
  rewrite (Hfg x) by (now left). rewrite IH; [reflexivity|].
  intros y Hy. apply Hfg. now right.
Qed.

(** The loop nest does not run its body when one of N, H, W is not positive. *)
Lemma nhw_order_empty (N H W : Z) : N <= 0 \/ H <= 0 \/ W <= 0 -> nhw_order N H W = [].
Proof.
  unfold nhw_order. intros [HN | [HH | HW]].
  - now rewrite (range_nonpos N).
  - rewrite (range_nonpos H) by assumption. apply flat_map_nil.
  - rewrite (range_nonpos W) by assumption. cbn [map].
    rewrite (flat_map_ext_in _ (fun _ => [])); [apply flat_map_nil|].
    intros n _. apply flat_map_nil.
Qed.

(** X5.  When one of N, H, W is not positive, [execute_forward] writes nothing to
    dst, yet in training mode it still stores both statistics of every
    channel: the quotient of zero by the [int] product [W * N * H], and
    1/sqrt of the quotient of zero by [W * H * N] plus eps. *)
Theorem execute_forward_empty_volume {A : Arith} (cfg : bnorm_conf A)
    (src scaleshift dst : buffer A) :
  MB cfg <= 0 \/ H cfg <= 0 \/ W cfg <= 0 ->
  (forall wso, fst (execute_forward cfg src scaleshift dst wso) = dst)
  /\ (forall ws, exists ws',
         snd (execute_forward cfg src scaleshift dst (Some ws)) = Some ws'
         /\ forall c, 0 <= c < C cfg ->
              ws' c = fdiv (of_int 0) (of_int (int_mul (int_mul (W cfg) (MB cfg)) (H cfg)))
              /\ ws' (C cfg + c)
                 = of_double
                     (ddiv (dlit 1)
                        (dsqrt (dadd (to_double
                                        (fdiv (of_int 0)
                                           (of_int (int_mul (int_mul (W cfg) (H cfg)) (MB cfg)))))
                                     (batch_norm_epsilon cfg))))).
Proof.
  intros Hempty. pose proof (nhw_order_empty _ _ _ Hempty) as Hnil. split.
  - intros wso. rewrite execute_forward_dst.
    rewrite (flat_map_ext_in _ (fun _ => [])); [now rewrite flat_map_nil|].
    intros c _. unfold fwd_dst_writes. now rewrite Hnil.
  - intros ws.
    destruct (execute_forward_ws_at cfg src scaleshift dst ws) as [ws' [Hsome [Hcells _]]].
    exists ws'. split; [exact Hsome|]. intros c Hc.
    destruct (Hcells c Hc) as [Hm Hv]. unfold fwd_ws_mean, fwd_ws_variance in *.
    cbn [Z.add] in Hm. rewrite Hm, Hv.
    unfold fwd_invstd, fwd_variance, fwd_sqsum, fwd_mean. rewrite Hnil. split; reflexivity.
Qed.

(** X6.  When one of N, H, W is not positive, [execute_backward] writes nothing to
    diff_src, yet a non-null diff_scaleshift still receives 0.0 * variance and
    0.0 for every channel. *)
Theorem execute_backward_empty_volume {A : Arith} (cfg : bnorm_conf A)
    (src diff_dst scaleshift ws diff_src : buffer A) :
  MB cfg <= 0 \/ H cfg <= 0 \/ W cfg <= 0 ->
  layout2 (diff_weights_pd cfg) (C cfg) ->
  (forall dss, buf_eq (fst (execute_backward cfg src diff_dst scaleshift ws diff_src dss))
                      diff_src)
  /\ (forall dss, exists dss',
         snd (execute_backward cfg src diff_dst scaleshift ws diff_src (Some dss)) = Some dss'
         /\ forall c, 0 <= c < C cfg ->
              dss' (off (diff_weights_pd cfg) [0; c])
              = fmul (of_double (dlit 0)) (ws (off (workspace_pd cfg) [C cfg] + c))
              /\ dss' (off (diff_weights_pd cfg) [1; c]) = of_double (dlit 0)).
Proof.
  intros Hempty Hlay. pose proof (nhw_order_empty _ _ _ Hempty) as Hnil. split.
  - intros dss. eapply buf_eq_trans; [apply execute_backward_diff_src|].
    rewrite (flat_map_ext_in _ (fun _ => [])); [rewrite flat_map_nil; apply buf_eq_refl|].
    intros c _. unfold bwd_src_writes. now rewrite Hnil.
  - intros dss.
    destruct (execute_backward_diff_scaleshift_frame cfg src diff_dst scaleshift ws diff_src dss
                Hlay) as [dss' [Hsome [Hcells _]]].
    exists dss'. split; [exact Hsome|]. intros c Hc.
    destruct (Hcells c Hc) as [Hg Hb]. rewrite Hg, Hb.
    unfold bwd_diff_gamma, bwd_diff_beta. rewrite bwd_sums_fold, Hnil. split; reflexivity.
Qed.

Lemma execute_forward_empty_volume_witness :
  fst (execute_forward (@empty_batch_cfg F32.arith) ex_src ex_scaleshift ones None) = ones.
Proof.
  destruct (execute_forward_empty_volume (@empty_batch_cfg F32.arith)
              ex_src ex_scaleshift ones) as [Hdst _].
  - left. cbn. lia.
  - exact (Hdst None).
Defined.

Lemma execute_backward_empty_volume_witness :
  buf_eq (fst (execute_backward (@empty_batch_cfg F32.arith)
                 ex_src ex_src ex_scaleshift ones ones None)) ones.
Proof.
  destruct (execute_backward_empty_volume (@empty_batch_cfg F32.arith)
              ex_src ex_src ex_scaleshift ones ones) as [Hsrc _].
  - left. cbn. lia.
  - intros r c r' c'. cbn. lia.
  - exact (Hsrc None).
Defined.

(** ** What the backward kernel reads of scaleshift *)

(** X7.  [execute_backward] reads only the scale row of scaleshift: two scaleshift
    buffers with the same row 0 give the same diff_src, and diff_scaleshift
    does not depend on scaleshift at all. *)
Theorem execute_backward_reads_scale_only {A : Arith} (cfg : bnorm_conf A)
    (src diff_dst scaleshift scaleshift' scaleshift'' ws diff_src : buffer A)
    (dss : option (buffer A)) :
  (forall c, 0 <= c < C cfg ->
     scaleshift (off (weights_pd cfg) [0; c]) = scaleshift' (off (weights_pd cfg) [0; c])) ->
  buf_eq (fst (execute_backward cfg src diff_dst scaleshift ws diff_src dss))
         (fst (execute_backward cfg src diff_dst scaleshift' ws diff_src dss))
  /\ snd (execute_backward cfg src diff_dst scaleshift ws diff_src dss)
     = snd (execute_backward cfg src diff_dst scaleshift'' ws diff_src dss).
Proof.
  intros Hrow. split.
  - eapply buf_eq_trans; [apply execute_backward_diff_src|].
    eapply buf_eq_trans; [|apply buf_eq_sym; apply execute_backward_diff_src].
    rewrite (flat_map_ext_in (bwd_src_writes cfg src diff_dst scaleshift ws)
                             (bwd_src_writes cfg src diff_dst scaleshift' ws));
      [apply buf_eq_refl|].
    intros c Hc. apply range_In in Hc. unfold bwd_src_writes. apply map_ext.
    intros t. unfold bwd_out, bwd_gamma. now rewrite (Hrow c Hc).
  - now rewrite !execute_backward_diff_scaleshift.
Qed.

Lemma execute_backward_reads_scale_only_witness :
  buf_eq (fst (execute_backward (@two_channel_cfg F32.arith) ex_src ex_src ex_scaleshift ones
                 zeros None))
         (fst (execute_backward (@two_channel_cfg F32.arith) ex_src ex_src
                 (fun p => if p <? 2 then ex_scaleshift p else of_int 7) ones zeros None)).
Proof.
  destruct (execute_backward_reads_scale_only (@two_channel_cfg F32.arith) ex_src ex_src
              ex_scaleshift (fun p => if p <? 2 then ex_scaleshift p else of_int 7)
              ex_scaleshift ones zeros None) as [Hsrc _].
  - intros c Hc. cbn in Hc. small_cases; reflexivity.
  - exact Hsrc.
Defined.

(** ** Exceptional values in binary32 *)

Lemma int_mul_0_l (b : Z) : int_mul 0 b = 0.
Proof. reflexivity. Qed.

Lemma int_mul_0_r (a : Z) : int_mul a 0 = 0.
Proof. unfold int_mul. now rewrite Z.mul_0_r. Qed.

(** X8.  With N, H or W equal to zero the divisions by [W * N * H] and [W * H * N]
    are divisions of zero by zero: in binary32 a forward call in training
    mode stores NaN for both statistics of every channel. *)
Theorem binary32_empty_volume_nan (cfg : bnorm_conf F32.arith)
    (src scaleshift dst ws : buffer F32.arith) :
  MB cfg = 0 \/ H cfg = 0 \/ W cfg = 0 ->
  exists ws',
    snd (execute_forward cfg src scaleshift dst (Some ws)) = Some ws'
    /\ forall c, 0 <= c < C cfg -> ws' c = S754_nan /\ ws' (C cfg + c) = S754_nan.
Proof.
  intros Hzero.
  assert (Hnil : nhw_order (MB cfg) (H cfg) (W cfg) = []) by (apply nhw_order_empty; lia).
  assert (H1 : int_mul (int_mul (W cfg) (MB cfg)) (H cfg) = 0).
  { destruct Hzero as [-> | [-> | ->]];
      now rewrite ?int_mul_0_r, ?int_mul_0_l, ?int_mul_0_r. }
  assert (H2 : int_mul (int_mul (W cfg) (H cfg)) (MB cfg) = 0).
  { destruct Hzero as [-> | [-> | ->]];
      now rewrite ?int_mul_0_r, ?int_mul_0_l, ?int_mul_0_r. }
  destruct (execute_forward_ws_at cfg src scaleshift dst ws) as [ws' [Hsome [Hcells _]]].
  exists ws'. split; [exact Hsome|]. intros c Hc.
  destruct (Hcells c Hc) as [Hm Hv]. unfold fwd_ws_mean, fwd_ws_variance in *.
  cbn [Z.add] in Hm. rewrite Hm, Hv.
  unfold fwd_invstd, fwd_variance, fwd_sqsum, fwd_mean. rewrite Hnil, H1, H2.
  split; reflexivity.
Qed.

Lemma binary32_empty_volume_nan_witness :
  exists ws',
    snd (execute_forward (@empty_batch_cfg F32.arith) ex_src ex_scaleshift zeros (Some zeros))
    = Some ws'
    /\ forall c, 0 <= c < C (@empty_batch_cfg F32.arith) ->
         ws' c = S754_nan /\ ws' (C (@empty_batch_cfg F32.arith) + c) = S754_nan.
Proof.
  apply (binary32_empty_volume_nan (@empty_batch_cfg F32.arith) ex_src ex_scaleshift zeros zeros).
  left. reflexivity.
Defined.

(** X9.  With eps = 0 nothing keeps the second statistic finite: in binary32, when
    the computed variance of a channel is zero, the statistic is +infinity,
    and dst is NaN at every element of the channel that equals the computed
    mean, for a scale that is zero or finite. *)
Theorem binary32_zero_variance_zero_eps (cfg : bnorm_conf F32.arith)
    (src scaleshift dst : buffer F32.arith) (c : Z) (sv : bool) :
  batch_norm_epsilon cfg = S754_zero false ->
  fwd_variance cfg src c = S754_zero sv ->
  layout4 (src_pd cfg) (MB cfg) (C cfg) (H cfg) (W cfg) ->
  0 <= c < C cfg ->
  fwd_invstd cfg src c = S754_infinity false
  /\ forall wso n h w,
       0 <= n < MB cfg -> 0 <= h < H cfg -> 0 <= w < W cfg ->
       src (off (src_pd cfg) [n; c; h; w]) = fwd_mean cfg src c ->
       finite_or_zero (fwd_mean cfg src c) = true ->
       finite_or_zero (scaleshift (off (weights_pd cfg) [0; c])) = true ->
       fst (execute_forward cfg src scaleshift dst wso) (off (src_pd cfg) [n; c; h; w])
       = S754_nan.
Proof.
  intros Heps Hvar Hlay Hc.
  assert (Hinv : fwd_invstd cfg src c = S754_infinity false).
  { unfold fwd_invstd. rewrite Hvar, Heps. now destruct sv. }
  split; [exact Hinv|].
  intros wso n h w Hn Hh Hw Hx Hfm Hfs.
  rewrite execute_forward_dst_at by assumption.
  unfold fwd_out. rewrite Hinv. unfold src_at. rewrite Hx.
  assert (Hsub : fsub (fwd_mean cfg src c) (fwd_mean cfg src c) = S754_zero false).
  { destruct (fwd_mean cfg src c) as [[|] | | | s m e]; try discriminate Hfm;
      try reflexivity. apply SFsub_diag. }
  rewrite Hsub.
  destruct (scaleshift (off (weights_pd cfg) [0; c])) as [[|] | | | s m e];
    try discriminate Hfs; reflexivity.
Qed.

Lemma binary32_zero_variance_zero_eps_witness :
  fwd_invstd (@ex_cfg F32.arith) (fun _ => of_int 3) 0 = S754_infinity false
  /\ fst (execute_forward (@ex_cfg F32.arith) (fun _ => of_int 3) ex_scaleshift zeros None)
         (off (src_pd (@ex_cfg F32.arith)) [0; 0; 0; 0]) = S754_nan.
Proof.
  destruct (binary32_zero_variance_zero_eps (@ex_cfg F32.arith) (fun _ => of_int 3)
              ex_scaleshift zeros 0 false) as [Hinv Hdst].
  - reflexivity.
  - vm_compute. reflexivity.
  - intros n c h w n' c' h' w'. cbn. lia.
  - cbn. lia.
  - split; [exact Hinv|].
    apply (Hdst None 0 0 0).
    + cbn. lia.
    + cbn. lia.
    + cbn. lia.
    + vm_compute. reflexivity.
    + vm_compute. reflexivity.
    + vm_compute. reflexivity.
Defined.

(** ** What the kernels leave alone *)

(** X18.  [execute_forward] changes dst only at the offsets its descriptor gives to
    the logical indices of the tensor, [execute_backward] changes diff_src
    only at such offsets, and a non-null diff_scaleshift only at the offsets
    of its 2C logical elements: padding and whatever else lies in the buffers
    keeps its contents. *)
Theorem kernels_write_footprint {A : Arith} (cfg : bnorm_conf A)
    (src scaleshift diff_dst ws dst diff_src dss : buffer A)
    (wso dso : option (buffer A)) (p : Z) :
  ((forall n c h w, 0 <= n < MB cfg -> 0 <= c < C cfg -> 0 <= h < H cfg -> 0 <= w < W cfg ->
                    p <> off (src_pd cfg) [n; c; h; w]) ->
   fst (execute_forward cfg src scaleshift dst wso) p = dst p)
  /\ ((forall n c h w, 0 <= n < MB cfg -> 0 <= c < C cfg -> 0 <= h < H cfg -> 0 <= w < W cfg ->
                       p <> off (diff_src_pd cfg) [n; c; h; w]) ->
      fst (execute_backward cfg src diff_dst scaleshift ws diff_src dso) p = diff_src p)
  /\ ((forall r c, 0 <= r < 2 -> 0 <= c < C cfg -> p <> off (diff_weights_pd cfg) [r; c]) ->
      exists dss',
        snd (execute_backward cfg src diff_dst scaleshift ws diff_src (Some dss)) = Some dss'
        /\ dss' p = dss p).
Proof.
  split; [|split].
  - intros Hp. rewrite execute_forward_dst.
    apply (chan_writes_frame (src_pd cfg) (MB cfg) (H cfg) (W cfg)).
    intros n c h w Hc Hn Hh Hw. apply range_In in Hc. now apply Hp.
  - intros Hp. rewrite execute_backward_diff_src.
    apply (chan_writes_frame (diff_src_pd cfg) (MB cfg) (H cfg) (W cfg)).
    intros n c h w Hc Hn Hh Hw. apply range_In in Hc. now apply Hp.
  - intros Hp. rewrite execute_backward_diff_scaleshift. cbn [option_map].
    eexists. split; [reflexivity|].
    apply write_all_notin. intros Hin.
    apply in_map_iff in Hin. destruct Hin as [[k v] [Hk Hin]]. cbn in Hk. subst k.
    apply in_flat_map in Hin. destruct Hin as [c [Hc Hin]]. apply range_In in Hc.
    cbn in Hin. destruct Hin as [Heq | [Heq | []]]; inversion Heq as [[Hoff Hval]].
    + apply (Hp 0 c); [lia | assumption | now rewrite Hoff].
    + apply (Hp 1 c); [lia | assumption | now rewrite Hoff].
Qed.

Lemma kernels_write_footprint_witness :
  fst (execute_forward (@ex_cfg F32.arith) ex_src ex_scaleshift ones None) 4 = ones 4.
Proof.
  destruct (kernels_write_footprint (@ex_cfg F32.arith) ex_src ex_scaleshift ex_src ones ones
              ones ones None None 4) as [Hdst _].
  apply Hdst. intros n c h w Hn Hc Hh Hw. cbn in *. lia.
Defined.
